(** * telebot pollers: LongPoller and MiddlewarePoller (poller.go)

    A shallow embedding of the two [Poll] loops of poller.go as labelled
    transition systems.  A goroutine is a program counter plus its local
    variables; one transition runs the goroutine from one communication
    (channel operation or call into the bot) to the next.  Everything the
    loops cannot decide themselves (when the driver raises [stop], what
    [getUpdates] returns, when the consumer takes an item from [dest], what
    the inner poller puts on the relay channel, which ready case a [select]
    picks) is an action of the schedule.  Statements that follow one
    another without waiting ([select] on [default] and the call of
    [getUpdates]; the receive from [stop], [close(stop2)] and [return]) are
    one transition: the model does not tell where between them an event of
    the environment falls. *)

From Stdlib Require Import ZArith Lia String.
From stdpp Require Import base option list sorting.

Local Open Scope Z_scope.

(** ** Go's [int] (64 bit, two's complement) *)

Definition int_min : Z := - 2 ^ 63.
Definition int_max : Z := 2 ^ 63 - 1.

Definition int_wrap (z : Z) : Z := (z + 2 ^ 63) mod 2 ^ 64 - 2 ^ 63.

(** [a + b] on [int]: overflow wraps around. *)
Definition int_add (a b : Z) : Z := int_wrap (a + b).

Definition in_int (z : Z) : Prop := int_min <= z <= int_max.

(** ** Data *)

(** Modelled from the spec: the [Update] struct is declared outside
    poller.go; the pollers read its integer field [ID] and nothing else, the
    rest of the record is carried along as an opaque text. *)
Record Update : Type := mkUpdate { ID : Z; Body : string }.

(** Go's [error] values as far as poller.go builds them: some error of the
    transport, or [errors.Wrap(cause, msg)]. *)
Inductive error : Type :=
| ErrNew (msg : string)
| ErrWrap (cause : error) (msg : string).

Definition errors_Wrap (err : error) (msg : string) : error := ErrWrap err msg.

(** What [b.getUpdates] hands back: the pair [(updates, err)], where
    [err = None] is Go's [nil].  The method itself belongs to the bot and is
    not part of poller.go: its answers are supplied by the schedule. *)
Record FetchResult : Type := mkFetch { updates : list Update; err : option error }.

Definition fetched (l : list Update) : FetchResult := mkFetch l None.
Definition failed (e : error) : FetchResult := mkFetch [] (Some e).

(** [time.Duration] is an [int64] count of nanoseconds. *)
Record LongPoller : Type := mkLongPoller { Timeout : Z }.

(** The field [filter], a function from a pointer to [Update] to [bool]:
    the filter gets a pointer to the local copy
    [upd], so besides its verdict it leaves a (possibly modified) update
    behind; being a Go closure it may also keep state of its own, of type
    [FS], threaded through the calls. *)
Record MiddlewarePoller (P FS : Type) : Type := mkMiddlewarePoller {
  Poller : P;
  filter : FS -> Update -> bool * Update * FS;
  Capacity : Z
}.
Arguments mkMiddlewarePoller {P FS} _ _ _.
Arguments Poller {P FS} _.
Arguments filter {P FS} _ _ _.
Arguments Capacity {P FS} _.

(** [Middleware(p, filter)]: [Capacity] keeps its zero value. *)
Definition Middleware {P FS : Type} (p : P)
    (filter : FS -> Update -> bool * Update * FS) : MiddlewarePoller P FS :=
  {| Poller := p; filter := filter; Capacity := 0 |}.

(** ** LongPoller.Poll *)

Module LP.

(** Where the goroutine stands. *)
Inductive Pc : Type :=
| AtSelect                                  (* at the head of [for], before [select] *)
| InFetch                                   (* inside [b.getUpdates(latestUpd+1, p.Timeout)] *)
| InSend (u : Update) (rest : list Update)  (* in [dest <- u]; [rest] still to range over *)
| Returned.

Inductive Event : Type :=
| EnvStop                              (* the driver raised [stop] *)
| EvGetUpdates (offset timeout : Z)    (* call of [b.getUpdates] *)
| EvDebug (e : error)                  (* call of [b.debug] *)
| EvSend (u : Update)                  (* [dest <- u] completed *)
| EvReturn.                            (* [case <-stop: return] *)

Record State : Type := mkState {
  pc : Pc;
  latestUpd : Z;
  stop : bool;            (* a receive on [stop] can proceed *)
  trace : list Event      (* history, oldest first *)
}.

Inductive Action : Type :=
| RaiseStop                        (* environment: [stop] is closed / sent to *)
| Select                           (* the goroutine runs its [select] and, on
                                      [default], goes on to call [getUpdates] *)
| FetchReturns (r : FetchResult)   (* [getUpdates] returns [r] *)
| DestAccepts.                     (* the pending send on [dest] goes through *)

Definition init : State :=
  {| pc := AtSelect; latestUpd := 0; stop := false; trace := [] |}.

Definition emit (s : State) (evs : list Event) : State :=
  {| pc := pc s; latestUpd := latestUpd s; stop := stop s; trace := trace s ++ evs |}.

Definition goto (s : State) (l : Pc) : State :=
  {| pc := l; latestUpd := latestUpd s; stop := stop s; trace := trace s |}.

(** [for _, update := range updates { latestUpd = update.ID; dest <- update }]
    up to the send: with nothing left the loop body of [for] is over. *)
Definition range (s : State) (upds : list Update) : State :=
  match upds with
  | [] => goto s AtSelect
  | u :: rest =>
      {| pc := InSend u rest; latestUpd := ID u; stop := stop s; trace := trace s |}
  end.

Definition step (p : LongPoller) (s : State) (a : Action) : option State :=
  match a, pc s with
  | RaiseStop, _ =>
      Some {| pc := pc s; latestUpd := latestUpd s; stop := true;
              trace := trace s ++ [EnvStop] |}
  | Select, AtSelect =>
      if stop s
      then Some (goto (emit s [EvReturn]) Returned)
      else Some (goto (emit s [EvGetUpdates (int_add (latestUpd s) 1) (Timeout p)]) InFetch)
  | FetchReturns r, InFetch =>
      match err r with
      | Some e =>
          Some (goto (emit s [EvDebug (errors_Wrap e "getUpdates() failed")]) AtSelect)
      | None => Some (range s (updates r))
      end
  | DestAccepts, InSend u rest => Some (range (emit s [EvSend u]) rest)
  | _, _ => None
  end.

Fixpoint run (p : LongPoller) (sched : list Action) (s : State) : option State :=
  match sched with
  | [] => Some s
  | a :: sched' =>
      match step p s a with
      | Some s' => run p sched' s'
      | None => None
      end
  end.

(** Projections of a history. *)
Definition sent_of (t : list Event) : list Update :=
  omap (fun e => match e with EvSend u => Some u | _ => None end) t.
Definition offsets_of (t : list Event) : list Z :=
  omap (fun e => match e with EvGetUpdates o _ => Some o | _ => None end) t.
Definition debugged_of (t : list Event) : list error :=
  omap (fun e => match e with EvDebug x => Some x | _ => None end) t.

Definition sent (s : State) : list Update := sent_of (trace s).
Definition offsets (s : State) : list Z := offsets_of (trace s).

(** The update whose send is in progress, if any. *)
Definition pending (s : State) : list Update :=
  match pc s with InSend u _ => [u] | _ => [] end.

(** The updates of the current [range] that are not delivered yet. *)
Definition queue (s : State) : list Update :=
  match pc s with InSend u rest => u :: rest | _ => [] end.

(** The identifier of the last update of a list, [0] for none. *)
Definition cursor_of (l : list Update) : Z := default 0 (ID <$> last l).

(** The contract of the remote [getUpdates] method, which the loop relies
    on and does not check: a successful answer lists updates in strictly
    increasing order of identifier, none below the requested offset, and
    none with the largest [int] (so that [latestUpd+1] does not wrap). *)
Fixpoint increasing_above (lo : Z) (l : list Update) : bool :=
  match l with
  | [] => true
  | u :: l' => (lo <? ID u) && (ID u <? int_max) && increasing_above (ID u) l'
  end.

Definition contract (offset : Z) (r : FetchResult) : bool :=
  match err r with
  | Some _ => true
  | None => increasing_above (offset - 1) (updates r)
  end.

(** Every answer of [getUpdates] along a schedule honours the contract for
    the offset it was asked with. *)
Fixpoint well_served (p : LongPoller) (sched : list Action) (s : State) : bool :=
  match sched with
  | [] => true
  | a :: sched' =>
      match a with
      | FetchReturns r => contract (int_add (latestUpd s) 1) r
      | _ => true
      end
      && match step p s a with
         | Some s' => well_served p sched' s'
         | None => true
         end
  end.

(** A burst of failing fetches: each round runs [select] and has
    [getUpdates] fail. *)
Definition failing_rounds (es : list error) : list Action :=
  es ≫= (fun e => [Select; FetchReturns (failed e)]).

(** The stop flag is up exactly when the driver raised it, and [Poll] has
    returned only through a [select] that came after. *)
Definition stop_inv (s : State) : Prop :=
  (stop s = true <-> EnvStop ∈ trace s) /\
  (pc s = Returned ->
   exists t1 t2, trace s = t1 ++ EvReturn :: t2 /\ EnvStop ∈ t1).

(** The cursor is the identifier of the last update whose delivery has
    begun; during a call of [getUpdates] the offset asked for is the
    cursor plus one. *)
Definition cursor_inv (s : State) : Prop :=
  latestUpd s = cursor_of (sent s ++ pending s) /\
  (pc s = InFetch -> last (offsets s) = Some (int_add (latestUpd s) 1)).

(** Delivered earlier with a smaller identifier. *)
Definition id_lt (u v : Update) : Prop := ID u < ID v.

(** What holds of the loop as long as [getUpdates] honours its contract:
    the cursor stays in range, deliveries (done and due) are in strictly
    increasing order of identifier, and the cursor is at or above all that
    was delivered. *)
Definition served_inv (s : State) : Prop :=
  0 <= latestUpd s < int_max /\
  StronglySorted id_lt (sent s ++ queue s) /\
  Forall (fun u => ID u < int_max) (queue s) /\
  Forall (fun u => ID u <= latestUpd s) (sent s) /\
  (forall u rest, queue s = u :: rest -> latestUpd s = ID u).

(** The stop signal is raised before any call of [getUpdates] has
    returned. *)
Fixpoint stop_before_fetch_completes (sched : list Action) : bool :=
  match sched with
  | [] => false
  | RaiseStop :: _ => true
  | FetchReturns _ :: _ => false
  | _ :: sched' => stop_before_fetch_completes sched'
  end.

(** Every call of [getUpdates] so far asked for one more than the
    identifier of the update sent last before it, with the poller's
    timeout. *)
Definition requests_ok (p : LongPoller) (s : State) : Prop :=
  forall t1 o to t2, trace s = t1 ++ EvGetUpdates o to :: t2 ->
    o = int_add (cursor_of (sent_of t1)) 1 /\ to = Timeout p.

(** What a schedule makes [getUpdates] hand to the loop: the updates of the
    answers without an error, in the order of the answers.  An answer that
    comes with an error counts for nothing, whatever updates it lists
    ([continue] skips the [range]). *)
Definition answer_of (a : Action) : list Update :=
  match a with
  | FetchReturns r => match err r with None => updates r | Some _ => [] end
  | _ => []
  end.

Definition answered (sched : list Action) : list Update := sched ≫= answer_of.

End LP.

(** ** MiddlewarePoller.Poll *)

Module MP.

(** The four channels [Poll] holds. *)
Inductive Chan : Type :=
| dest      (* parameter: where the sieved updates go *)
| stop      (* parameter: the outer stop signal *)
| middle    (* [make(chan Update, cap)]: the relay fed by the inner poller *)
| stop2.    (* [make(chan struct{})]: the stop signal of the inner poller *)

Inductive Pc : Type :=
| AtSelect              (* at the head of [for], before [select] *)
| InSend (u : Update)   (* in [dest <- upd] *)
| Returned.

Inductive Event : Type :=
| EnvStop                                 (* the driver raised the outer [stop] *)
| EnvInner (u : Update)                   (* the inner poller's send on [middle] went through *)
| EvMake (c : Chan) (capacity : Z)        (* [make] *)
| EvGo                                    (* [go p.Poller.Poll(b, middle, stop2)] *)
| EvRecv (c : Chan) (v : option Update)   (* a receive by [select] *)
| EvFilter (arg : Update) (verdict : bool) (out : Update)   (* [p.filter(&upd)] *)
| EvSend (c : Chan) (u : Update)          (* a send completed *)
| EvClose (c : Chan)
| EvReturn.

Section Poll.
Context {P FS : Type}.
Variable p : MiddlewarePoller P FS.

Record State : Type := mkState {
  pc : Pc;
  fenv : FS;               (* what the filter closure remembers *)
  stopped : bool;          (* a receive on the outer [stop] can proceed *)
  relay : list Update;     (* contents of [middle], head first *)
  cap : Z;                 (* the local [cap], capacity of [middle] *)
  stop2_closed : bool;
  trace : list Event       (* history, oldest first *)
}.

Inductive Action : Type :=
| RaiseStop               (* environment: the outer [stop] is closed / sent to *)
| InnerSend (u : Update)  (* environment: the inner poller sends [u] on [middle];
                              sending is all it does with the relay *)
| SelectStop              (* [select] takes [case <-stop] *)
| SelectMiddle            (* [select] takes [case upd := <-middle] *)
| DestAccepts.            (* the pending send on [dest] goes through *)

(** [cap := 1; if p.Capacity > 1 { cap = p.Capacity }] *)
Definition Poll_cap : Z := if 1 <? Capacity p then Capacity p else 1.

(** The state when the loop is entered: both channels made, the inner
    poller started. *)
Definition init (f0 : FS) : State :=
  {| pc := AtSelect; fenv := f0; stopped := false; relay := []; cap := Poll_cap;
     stop2_closed := false;
     trace := [EvMake middle Poll_cap; EvMake stop2 0; EvGo] |}.

Definition step (s : State) (a : Action) : option State :=
  match a with
  | RaiseStop =>
      Some {| pc := pc s; fenv := fenv s; stopped := true; relay := relay s;
              cap := cap s; stop2_closed := stop2_closed s;
              trace := trace s ++ [EnvStop] |}
  | InnerSend u =>
      (* a send on a buffered channel goes through while there is room *)
      if Z.of_nat (length (relay s)) <? cap s
      then Some {| pc := pc s; fenv := fenv s; stopped := stopped s;
                   relay := relay s ++ [u]; cap := cap s;
                   stop2_closed := stop2_closed s;
                   trace := trace s ++ [EnvInner u] |}
      else None
  | SelectStop =>
      match pc s with
      | AtSelect =>
          if stopped s
          then Some {| pc := Returned; fenv := fenv s; stopped := stopped s;
                       relay := relay s; cap := cap s; stop2_closed := true;
                       trace := trace s ++ [EvRecv stop None; EvClose stop2; EvReturn] |}
          else None
      | _ => None
      end
  | SelectMiddle =>
      match pc s, relay s with
      | AtSelect, u :: q =>
          let '(verdict, u', f') := filter p (fenv s) u in
          Some {| pc := if verdict then InSend u' else AtSelect;
                  fenv := f'; stopped := stopped s; relay := q; cap := cap s;
                  stop2_closed := stop2_closed s;
                  trace := trace s ++ [EvRecv middle (Some u); EvFilter u verdict u'] |}
      | _, _ => None
      end
  | DestAccepts =>
      match pc s with
      | InSend u =>
          Some {| pc := AtSelect; fenv := fenv s; stopped := stopped s;
                  relay := relay s; cap := cap s; stop2_closed := stop2_closed s;
                  trace := trace s ++ [EvSend dest u] |}
      | _ => None
      end
  end.

Fixpoint run (sched : list Action) (s : State) : option State :=
  match sched with
  | [] => Some s
  | a :: sched' =>
      match step s a with
      | Some s' => run sched' s'
      | None => None
      end
  end.

End Poll.

Arguments State : clear implicits.
Arguments Action : clear implicits.

(** Projections of a history. *)
Definition sent_of (t : list Event) : list Update :=
  omap (fun e => match e with EvSend dest u => Some u | _ => None end) t.
Definition received_of (t : list Event) : list Update :=
  omap (fun e => match e with EvRecv middle (Some u) => Some u | _ => None end) t.
Definition produced_of (t : list Event) : list Update :=
  omap (fun e => match e with EnvInner u => Some u | _ => None end) t.
Definition calls_of (t : list Event) : list (Update * bool * Update) :=
  omap (fun e => match e with EvFilter a b o => Some (a, b, o) | _ => None end) t.

(** The events that are [Poll]'s own doing (not the environment's). *)
Definition own (e : Event) : bool :=
  match e with EnvStop | EnvInner _ => false | _ => true end.


(** What the loop may do to a channel. *)
Definition allowed (e : Event) : bool :=
  match e with
  | EvRecv stop None => true
  | EvRecv middle (Some _) => true
  | EvSend dest _ => true
  | EvClose stop2 => true
  | EvFilter _ _ _ | EvReturn => true
  | _ => false
  end.

Definition pending {FS} (s : State FS) : list Update :=
  match pc s with InSend u => [u] | _ => [] end.

Definition verdict_of (c : Update * bool * Update) : bool := c.1.2.
Definition out_of (c : Update * bool * Update) : Update := c.2.

(** The sieve as a function of the relay items and of what the closure
    remembers: the calls [Poll] makes to the filter, one per item, in
    order. *)
Fixpoint sieve {FS} (f : FS -> Update -> bool * Update * FS) (f0 : FS)
    (l : list Update) : list (Update * bool * Update) :=
  match l with
  | [] => []
  | u :: l' =>
      let '(verdict, u', f') := f f0 u in
      (u, verdict, u') :: sieve f f' l'
  end.

(** The updates a list of filter calls lets through. *)
Definition passed (cs : list (Update * bool * Update)) : list Update :=
  out_of <$> List.filter verdict_of cs.

(** A filter that only looks: it hands every update back as it got it. *)
Definition read_only {FS} (f : FS -> Update -> bool * Update * FS) : Prop :=
  forall f0 u, (f f0 u).1.2 = u.

(** A plain predicate as a filter. *)
Definition of_pred (pr : Update -> bool) : unit -> Update -> bool * Update * unit :=
  fun _ u => (pr u, u, tt).

(** What the closure remembers after it was run on the items of [l]. *)
Fixpoint sieve_env {FS} (f : FS -> Update -> bool * Update * FS) (f0 : FS)
    (l : list Update) : FS :=
  match l with
  | [] => f0
  | u :: l' => sieve_env f (f f0 u).2 l'
  end.

(** The part of a history after the first event that satisfies [P]. *)
Fixpoint since (P : Event -> bool) (t : list Event) : list Event :=
  match t with
  | [] => []
  | e :: t' => if P e then t' else since P t'
  end.

Definition is_stop_raised (e : Event) : bool :=
  match e with EnvStop => true | _ => false end.
Definition is_stop_observed (e : Event) : bool :=
  match e with EvRecv stop None => true | _ => false end.
Definition is_stop2_closed (e : Event) : bool :=
  match e with EvClose stop2 => true | _ => false end.

(** The last three things [Poll] does. *)
Definition shutdown : list Event := [EvRecv stop None; EvClose stop2; EvReturn].

Section Invariants.
Context {P FS : Type}.
Variable p : MiddlewarePoller P FS.
Variable f0 : FS.

(** What [Poll] does before it enters the loop. *)
Definition setup : list Event := [EvMake middle (Poll_cap p); EvMake stop2 0; EvGo].

(** The relay is a bounded queue between the inner poller and the
    loop; the loop runs the filter once on each item it takes, in
    order, and what it sends is what the accepting calls left. *)
Definition sieve_inv (s : State FS) : Prop :=
  cap s = Poll_cap p /\
  Z.of_nat (length (relay s)) <= cap s /\
  produced_of (trace s) = received_of (trace s) ++ relay s /\
  calls_of (trace s) = sieve (filter p) f0 (received_of (trace s)) /\
  fenv s = sieve_env (filter p) f0 (received_of (trace s)) /\
  sent_of (trace s) ++ pending s = passed (calls_of (trace s)).

(** The loop touches channels only in the allowed ways, and shuts down
    once, at the end. *)
Definition frame_inv (s : State FS) : Prop :=
  exists t, trace s = setup ++ t /\
    Forall (fun e => own e = true -> allowed e = true) t /\
    (stopped s = true -> EnvStop ∈ t) /\
    stop2_closed s = (match pc s with Returned => true | _ => false end) /\
    match pc s with
    | Returned =>
        exists t1 t2, t = t1 ++ shutdown ++ t2 /\
          Forall (fun e => is_stop_observed e = false /\ is_stop2_closed e = false) t1 /\
          EnvStop ∈ t1 /\
          Forall (fun e => own e = false) t2
    | _ => Forall (fun e => is_stop_observed e = false /\ is_stop2_closed e = false) t
    end.
End Invariants.

(** [make(chan T, size)] as the Go runtime does it on a 64 bit platform:
    a buffer of [size] elements of [elem] bytes each is allocated behind
    the channel header, and the runtime panics ([makechan: size out of
    range]) on a negative size and on a buffer beyond what it can allocate.
    [None] is that panic. *)
Definition max_alloc : Z := 2 ^ 48.
Definition hchan_size : Z := 96.

Definition makechan (elem size : Z) : option Z :=
  if (size <? 0) || (max_alloc - hchan_size <? elem * size) then None else Some size.

(** [Poll] up to the loop: [middle := make(chan Update, cap)], then
    [stop2 := make(chan struct{})], then the inner poller is started.
    [elem] is the size of an [Update] in bytes.  A panic in [make] ends
    [Poll] before there is a relay or an inner poller. *)
Definition Poll_enter {P FS} (elem : Z) (p : MiddlewarePoller P FS) (f0 : FS) :
    option (State FS) :=
  _ ← makechan elem (Poll_cap p);
  _ ← makechan 0 0;
  Some (init p f0).

(** The filter calls of a history that returned false. *)
Definition rejected (cs : list (Update * bool * Update)) : list Update :=
  out_of <$> List.filter (fun c => negb (verdict_of c)) cs.

End MP.

(** ** A middleware around a long poller

    [Middleware(&LongPoller{...}, filter).Poll(b, dest, stop)]: the
    goroutine started by [go p.Poller.Poll(b, middle, stop2)] is
    [LongPoller.Poll] with the relay as its [dest] and the derived stop
    signal as its [stop].  Both loops run as modelled above; they meet in
    the relay (a send of the long poller is a send of the inner poller on
    the relay, and needs room there) and in the derived stop signal (its
    close by the middleware is the raising of the long poller's stop). *)

Module Chain.

Section Chain.
Context {FS : Type}.
Variable mw : MiddlewarePoller LongPoller FS.

Record State : Type := mkState {
  inner : LP.State;        (* the goroutine running [p.Poller.Poll] *)
  outer : MP.State FS      (* the goroutine running [MiddlewarePoller.Poll] *)
}.

Inductive Action : Type :=
| RaiseStop                             (* the driver raises the outer [stop] *)
| SelectStop                            (* middleware: [select] takes [case <-stop] *)
| SelectMiddle                          (* middleware: [select] takes [case upd := <-middle] *)
| DestAccepts                           (* middleware: the send on [dest] goes through *)
| InnerSelect                           (* long poller: runs its [select] *)
| InnerFetchReturns (r : FetchResult)   (* long poller: [getUpdates] returns [r] *)
| InnerSend.                            (* long poller: its send on [middle] goes through *)

Definition init (f0 : FS) : State :=
  {| inner := LP.init; outer := MP.init mw f0 |}.

Definition step (c : State) (a : Action) : option State :=
  match a with
  | RaiseStop =>
      o ← MP.step mw (outer c) MP.RaiseStop;
      Some {| inner := inner c; outer := o |}
  | SelectStop =>
      (* [close(stop2)] makes the long poller's [<-stop] ready *)
      o ← MP.step mw (outer c) MP.SelectStop;
      i ← LP.step (Poller mw) (inner c) LP.RaiseStop;
      Some {| inner := i; outer := o |}
  | SelectMiddle =>
      o ← MP.step mw (outer c) MP.SelectMiddle;
      Some {| inner := inner c; outer := o |}
  | DestAccepts =>
      o ← MP.step mw (outer c) MP.DestAccepts;
      Some {| inner := inner c; outer := o |}
  | InnerSelect =>
      i ← LP.step (Poller mw) (inner c) LP.Select;
      Some {| inner := i; outer := outer c |}
  | InnerFetchReturns r =>
      i ← LP.step (Poller mw) (inner c) (LP.FetchReturns r);
      Some {| inner := i; outer := outer c |}
  | InnerSend =>
      match LP.pc (inner c) with
      | LP.InSend u _ =>
          o ← MP.step mw (outer c) (MP.InnerSend u);
          i ← LP.step (Poller mw) (inner c) LP.DestAccepts;
          Some {| inner := i; outer := o |}
      | _ => None
      end
  end.

Fixpoint run (sched : list Action) (c : State) : option State :=
  match sched with
  | [] => Some c
  | a :: sched' =>
      match step c a with
      | Some c' => run sched' c'
      | None => None
      end
  end.

(** The two loops agree on the relay and on the derived stop signal. *)
Definition linked (c : State) : Prop :=
  MP.produced_of (MP.trace (outer c)) = LP.sent (inner c) /\
  LP.stop (inner c) = MP.stop2_closed (outer c).

End Chain.

Arguments State : clear implicits.

(** The long poller's share of a schedule. *)
Definition inner_action (a : Action) : list LP.Action :=
  match a with
  | SelectStop => [LP.RaiseStop]
  | InnerSelect => [LP.Select]
  | InnerFetchReturns r => [LP.FetchReturns r]
  | InnerSend => [LP.DestAccepts]
  | _ => []
  end.

Definition inner_sched (sched : list Action) : list LP.Action := sched ≫= inner_action.

End Chain.

(** Sample values for the concrete runs below. *)
Definition upd (n : Z) : Update := mkUpdate n "".
Definition lp10 : LongPoller := mkLongPoller 10.

(** A middleware that lets everything through, built by the constructor. *)
Definition mp_all : MiddlewarePoller unit unit :=
  Middleware tt (MP.of_pred (fun _ => true)).

(** A middleware with a wider relay that keeps identifiers above 6. *)
Definition mp_above_6 : MiddlewarePoller unit unit :=
  mkMiddlewarePoller tt (MP.of_pred (fun u => 6 <? ID u)) 4.

(** The middleware that keeps identifiers above 6, relay capacity 1, around
    the long poller. *)
Definition chain_above_6 : MiddlewarePoller LongPoller unit :=
  Middleware lp10 (MP.of_pred (fun u => 6 <? ID u)).

(** A middleware configured with the largest [int] as capacity. *)
Definition mp_huge : MiddlewarePoller unit unit :=
  mkMiddlewarePoller tt (MP.of_pred (fun _ => true)) int_max.

Example LP_one_round :
  LP.run (mkLongPoller 10)
    [LP.Select; LP.FetchReturns (fetched [upd 5; upd 7]); LP.DestAccepts; LP.DestAccepts;
     LP.Select; LP.RaiseStop; LP.FetchReturns (failed (ErrNew "eof")); LP.Select] LP.init
  = Some {| LP.pc := LP.Returned; LP.latestUpd := 7; LP.stop := true;
            LP.trace := [LP.EvGetUpdates 1 10; LP.EvSend (upd 5); LP.EvSend (upd 7);
                         LP.EvGetUpdates 8 10; LP.EnvStop;
                         LP.EvDebug (ErrWrap (ErrNew "eof") "getUpdates() failed");
                         LP.EvReturn] |}.
Proof. vm_compute. reflexivity. Qed.

(** The scenarios of the filtering middleware: the relay carries the
    identifiers 5, 7, 7, 9. *)
Example sieve_odd :
  MP.passed (MP.sieve (MP.of_pred (fun u => Z.odd (ID u))) tt [upd 5; upd 7; upd 7; upd 9])
  = [upd 5; upd 7; upd 7; upd 9].
Proof. reflexivity. Qed.

Example sieve_above_6 :
  MP.passed (MP.sieve (MP.of_pred (fun u => 6 <? ID u)) tt [upd 5; upd 7; upd 7; upd 9])
  = [upd 7; upd 7; upd 9].
Proof. reflexivity. Qed.

(** * Facts about Go's [int] *)

Lemma int_wrap_id z : in_int z -> int_wrap z = z.
Proof.
  unfold in_int, int_wrap, int_min, int_max. intros H.
  rewrite Z.mod_small; lia.
Qed.

Lemma int_add_1 z : in_int z -> z < int_max -> int_add z 1 = z + 1.
Proof.
  intros [Hlo Hhi] Hlt. unfold int_add. apply int_wrap_id.
  unfold in_int. lia.
Qed.

Example int_add_overflow : int_add int_max 1 = int_min.
Proof. reflexivity. Qed.

(** * LongPoller.Poll *)

Section LongPollerFacts.
Import LP.
Variable p : LongPoller.

(** Invariants are proved step by step. *)
Lemma run_invariant (I : State -> Prop) :
  (forall s a s', I s -> step p s a = Some s' -> I s') ->
  forall l s s', I s -> run p l s = Some s' -> I s'.
Proof.
  intros Hstep l. induction l as [|a l IH]; intros s s' Hs Hrun; simpl in Hrun.
  - by inversion Hrun; subst.
  - destruct (step p s a) as [s1|] eqn:E; [|done]. eauto.
Qed.

(** Case analysis of one step: what each enabled action does. *)
Lemma step_inv s a s' :
  step p s a = Some s' ->
  (a = RaiseStop /\ s' = mkState (pc s) (latestUpd s) true (trace s ++ [EnvStop])) \/
  (a = Select /\ pc s = AtSelect /\ stop s = true /\
     s' = mkState Returned (latestUpd s) true (trace s ++ [EvReturn])) \/
  (a = Select /\ pc s = AtSelect /\ stop s = false /\
     s' = mkState InFetch (latestUpd s) false
            (trace s ++ [EvGetUpdates (int_add (latestUpd s) 1) (Timeout p)])) \/
  (exists r e, a = FetchReturns r /\ pc s = InFetch /\ err r = Some e /\
     s' = mkState AtSelect (latestUpd s) (stop s)
            (trace s ++ [EvDebug (errors_Wrap e "getUpdates() failed")])) \/
  (exists r, a = FetchReturns r /\ pc s = InFetch /\ err r = None /\
     s' = range s (updates r)) \/
  (exists u rest, a = DestAccepts /\ pc s = InSend u rest /\
     s' = range (emit s [EvSend u]) rest).
Proof.
  destruct s as [l c st t]. unfold step; simpl.
  destruct a; destruct l; simpl; intros H; try discriminate.
  all: try (left; split; [done | congruence]).
  - destruct st; inversion H; subst; [right; left | right; right; left]; done.
  - destruct (err r) as [e|] eqn:E; inversion H; subst.
    + do 3 right; left. by exists r, e.
    + do 4 right; left. by exists r.
  - do 5 right. exists u, rest. inversion H. done.
Qed.

Lemma sent_range s l : sent (range s l) = sent s.
Proof. by destruct l. Qed.

Lemma offsets_range s l : offsets (range s l) = offsets s.
Proof. by destruct l. Qed.

Lemma trace_range s l : trace (range s l) = trace s.
Proof. by destruct l. Qed.

Lemma stop_range s l : stop (range s l) = stop s.
Proof. by destruct l. Qed.

Lemma sent_of_snoc t e :
  sent_of (t ++ [e]) = sent_of t ++ match e with EvSend u => [u] | _ => [] end.
Proof. unfold sent_of. rewrite omap_app. by destruct e. Qed.

Lemma offsets_of_snoc t e :
  offsets_of (t ++ [e]) =
  offsets_of t ++ match e with EvGetUpdates o _ => [o] | _ => [] end.
Proof. unfold offsets_of. rewrite omap_app. by destruct e. Qed.

(** Once [Poll] has returned, the driver may still touch [stop], and
    nothing else happens. *)
Lemma returned_stays l s s' :
  pc s = Returned -> run p l s = Some s' ->
  pc s' = Returned /\ offsets s' = offsets s /\ sent s' = sent s.
Proof.
  revert s. induction l as [|a l IH]; intros s Hpc Hrun; simpl in Hrun.
  - by inversion Hrun; subst.
  - destruct (step p s a) as [s1|] eqn:E; [|done].
    apply step_inv in E.
    destruct E as [[-> ->]|[(_&H&_)|[(_&H&_)|[(r&e&_&H&_)|[(r&_&H&_)|(u&rest&_&H&_)]]]]];
      try congruence.
    apply IH in Hrun; [|done]. destruct Hrun as (H1 & H2 & H3). split; [done|].
    unfold offsets, sent in *. simpl in *.
    rewrite offsets_of_snoc, sent_of_snoc in *. simpl in *.
    by rewrite !app_nil_r in *.
Qed.

(** C5. Each iteration of the loop starts at the [select]: with the stop
    signal up, [Poll] returns and never fetches again; otherwise it calls
    [getUpdates] with the offset [latestUpd+1] (Go's [+] on [int]), which
    exceeds the cursor unless the cursor is the largest [int].  No call of
    [getUpdates] is made in any other way. *)
Theorem C5_select_returns_or_fetches s :
  (pc s = AtSelect ->
   exists s', step p s Select = Some s' /\
     ((stop s = true /\ pc s' = Returned /\ trace s' = trace s ++ [EvReturn] /\
       forall l s'', run p l s' = Some s'' ->
                     pc s'' = Returned /\ offsets s'' = offsets s)
      \/
      (stop s = false /\ pc s' = InFetch /\
       trace s' = trace s ++ [EvGetUpdates (int_add (latestUpd s) 1) (Timeout p)] /\
       (in_int (latestUpd s) -> latestUpd s < int_max ->
        int_add (latestUpd s) 1 = latestUpd s + 1 /\
        latestUpd s < int_add (latestUpd s) 1)))) /\
  (forall a s', step p s a = Some s' -> offsets s' <> offsets s ->
                a = Select /\ pc s = AtSelect /\ stop s = false /\
                offsets s' = offsets s ++ [int_add (latestUpd s) 1]).
Proof.
  split.
  - intros Hpc. unfold step. rewrite Hpc. destruct (stop s) eqn:Hst.
    + eexists. split; [done|]. left. repeat split; try done.
      * eapply returned_stays in H; [|done]. tauto.
      * eapply returned_stays in H; [|done].
        destruct H as (_ & -> & _). unfold offsets. simpl.
        rewrite offsets_of_snoc. simpl. apply app_nil_r.
    + eexists. split; [done|]. right. repeat split; try done.
      * by apply int_add_1.
      * rewrite int_add_1 by done. lia.
  - intros a s' Hstep Hne. apply step_inv in Hstep.
    destruct Hstep as [[-> ->]|[(->&H&?&->)|[(->&H&?&->)|[(r&e&->&H&?&->)|[(r&->&H&?&->)|(u&rest&->&H&->)]]]]].
    all: unfold offsets in *; simpl in *;
      rewrite ?offsets_range, ?offsets_of_snoc in *; simpl in *;
      rewrite ?app_nil_r in *; try done.
    + destruct (updates r); simpl in *; done.
    + destruct rest; simpl in *; rewrite offsets_of_snoc in Hne; simpl in Hne;
        rewrite app_nil_r in Hne; done.
Qed.

(** C2 (amended). With the stop signal raised before the first [select],
    [Poll] never calls [getUpdates], never writes to [dest], and returns
    the moment its [select] runs. *)
Theorem C2_stop_before_first_select l s :
  run p (RaiseStop :: l) init = Some s ->
  sent s = [] /\ offsets s = [] /\
  (pc s = Returned \/
   (pc s = AtSelect /\
    exists s', step p s Select = Some s' /\ pc s' = Returned /\ sent s' = [])) /\
  (Select ∈ l -> pc s = Returned).
Proof.
  simpl. set (s0 := mkState _ _ _ _).
  assert (H0 : (stop s0 = true /\ sent s0 = [] /\ offsets s0 = []) /\
               (pc s0 = AtSelect \/ pc s0 = Returned)) by (split; [done | by left]).
  clearbody s0. revert s0 H0.
  induction l as [|a l IH]; intros s0 [(Hst & Hse & Hof) Hpc] Hrun; simpl in Hrun.
  - inversion Hrun; subst. repeat split; try done.
    + destruct Hpc as [Hpc|Hpc]; [right | by left]. split; [done|].
      unfold step. rewrite Hpc, Hst. eexists. split; [done|]. split; [done|].
      unfold sent in *. simpl. rewrite sent_of_snoc, Hse. done.
    + intros H. by apply elem_of_nil in H.
  - destruct (step p s0 a) as [s1|] eqn:E; [|done].
    apply step_inv in E.
    destruct E as [[-> ->]|[(->&H&?&->)|[(->&H&?&->)|[(r&e&->&H&?&->)|[(r&->&H&?&->)|(u&rest&->&H&->)]]]]];
      try (destruct Hpc; congruence).
    + (* the driver raises stop once more *)
      apply IH in Hrun.
      * destruct Hrun as (? & ? & ? & Hsel). repeat split; try done.
        intros Hin. apply elem_of_cons in Hin as [?|Hin]; [done | auto].
      * unfold sent, offsets in *. simpl.
        rewrite sent_of_snoc, offsets_of_snoc, Hse, Hof. done.
    + (* select sees the stop signal *)
      eapply returned_stays in Hrun; [|done].
      destruct Hrun as (Hr & Ho & Hs). unfold sent, offsets in *. simpl in *.
      rewrite sent_of_snoc in Hs. rewrite offsets_of_snoc in Ho. simpl in *.
      rewrite app_nil_r in *. repeat split; try congruence. by left.
Qed.

(** A call of [getUpdates] that fails: the wrapped error goes to
    [b.debug], nothing else changes, and the loop is back at [select]. *)
Lemma fetch_error_step s r e :
  pc s = InFetch -> err r = Some e ->
  exists s1, step p s (FetchReturns r) = Some s1 /\
    trace s1 = trace s ++ [EvDebug (errors_Wrap e "getUpdates() failed")] /\
    sent s1 = sent s /\ offsets s1 = offsets s /\
    stop s1 = stop s /\ latestUpd s1 = latestUpd s /\ pc s1 = AtSelect.
Proof.
  intros Hpc He. unfold step. rewrite Hpc, He. eexists. split; [done|].
  unfold sent, offsets. simpl. rewrite sent_of_snoc, offsets_of_snoc. simpl.
  by rewrite !app_nil_r.
Qed.

Lemma failing_rounds_run es s :
  pc s = AtSelect -> stop s = false ->
  exists s', run p (failing_rounds es) s = Some s' /\
    pc s' = AtSelect /\ stop s' = false /\ latestUpd s' = latestUpd s /\
    sent s' = sent s /\
    offsets s' = offsets s ++ replicate (length es) (int_add (latestUpd s) 1) /\
    debugged_of (trace s') =
      debugged_of (trace s) ++ ((fun e => errors_Wrap e "getUpdates() failed") <$> es).
Proof.
  revert s. induction es as [|e es IH]; intros s Hpc Hst.
  - exists s. simpl. by rewrite !app_nil_r.
  - change (failing_rounds (e :: es))
      with (Select :: FetchReturns (failed e) :: failing_rounds es).
    cbn [run]. unfold step at 1. rewrite Hpc, Hst.
    unfold step at 1. cbn [pc goto err failed].
    set (s1 := goto _ AtSelect).
    destruct (IH s1) as (s' & Hrun & ? & ? & Hl & Hs & Ho & Hd); [done..|].
    exists s'. rewrite Hrun.
    split; [done|]. split; [done|]. split; [done|]. split; [done|].
    unfold sent, offsets in *. simpl in *.
    rewrite Hs, Ho, Hd. unfold debugged_of. rewrite !omap_app.
    rewrite !sent_of_snoc, !offsets_of_snoc. simpl.
    rewrite !app_nil_r, <- !app_assoc. done.
Qed.

Lemma stop_inv_step s a s' : stop_inv s -> step p s a = Some s' -> stop_inv s'.
Proof.
  intros [Hs Hr] E. apply step_inv in E. unfold stop_inv.
  assert (Hsnoc : forall e b, e <> EnvStop -> stop s = b ->
            (b = true <-> EnvStop ∈ trace s ++ [e])).
  { intros e b He <-. rewrite Hs, elem_of_app, list_elem_of_singleton.
    split; [tauto | intros [?|?]; congruence]. }
  destruct E as [[-> ->]|[(->&H&Hst&->)|[(->&H&Hst&->)|[(r&e&->&H&?&->)|[(r&->&H&?&->)|(u&rest&->&H&->)]]]]];
    simpl; rewrite ?trace_range, ?stop_range; simpl.
  - split; [split; [intros _; apply elem_of_app; right; by left | done]|].
    intros Hpc. destruct (Hr Hpc) as (t1 & t2 & -> & Hin).
    exists t1, (t2 ++ [EnvStop]). by rewrite <- app_assoc.
  - split; [by apply Hsnoc|].
    intros _. exists (trace s), []. split; [done | by apply Hs].
  - split; [by apply Hsnoc | done].
  - split; [by apply Hsnoc | done].
  - split; [done|]. destruct (updates r); simpl; done.
  - split; [by apply Hsnoc|]. destruct rest; simpl; done.
Qed.

Lemma stop_inv_run l s : run p l init = Some s -> stop_inv s.
Proof.
  apply (run_invariant stop_inv); [apply stop_inv_step|].
  split; [|done]. simpl. split; [done|]. intros H. by apply elem_of_nil in H.
Qed.

Lemma never_stopped_never_returns l s s' :
  RaiseStop ∉ l -> stop s = false -> pc s <> Returned ->
  run p l s = Some s' -> stop s' = false /\ pc s' <> Returned.
Proof.
  revert s. induction l as [|a l IH]; intros s Hnin Hst Hpc Hrun; simpl in Hrun.
  - by inversion Hrun; subst.
  - destruct (step p s a) as [s1|] eqn:E; [|done].
    apply not_elem_of_cons in Hnin as [Hne Hnin].
    apply (IH s1); try done; apply step_inv in E;
    destruct E as [[-> ->]|[(->&H&?&->)|[(->&H&?&->)|[(r&e&->&H&?&->)|[(r&->&H&?&->)|(u&rest&->&H&->)]]]]];
      simpl; rewrite ?stop_range; simpl; try done; try congruence.
    + by destruct (updates r).
    + by destruct rest.
Qed.

(** C7. When [getUpdates] fails, the wrapped error is handed to
    [b.debug]; nothing is written to [dest] and the stop signal is left as
    it was; the loop is back at its [select] and, unless stopped, calls
    [getUpdates] again at once with the same offset.  Any number of
    failures in a row is retried.  [Poll] returns only through the
    [select] case of a stop signal the driver raised. *)
Theorem C7_fetch_error_reported_and_retried l s :
  run p l init = Some s ->
  (forall r e, pc s = InFetch -> err r = Some e ->
     exists s1, step p s (FetchReturns r) = Some s1 /\
       trace s1 = trace s ++ [EvDebug (errors_Wrap e "getUpdates() failed")] /\
       sent s1 = sent s /\ stop s1 = stop s /\ pc s1 = AtSelect /\
       (stop s1 = false ->
        exists s2, step p s1 Select = Some s2 /\ pc s2 = InFetch /\
          trace s2 = trace s1 ++ [EvGetUpdates (int_add (latestUpd s) 1) (Timeout p)])) /\
  (forall es, exists s', run p (failing_rounds es) init = Some s' /\
     pc s' = AtSelect /\ sent s' = [] /\
     length (offsets s') = length es /\
     debugged_of (trace s') = (fun e => errors_Wrap e "getUpdates() failed") <$> es) /\
  (pc s = Returned ->
   stop s = true /\ exists t1 t2, trace s = t1 ++ EvReturn :: t2 /\ EnvStop ∈ t1) /\
  (RaiseStop ∉ l -> pc s <> Returned).
Proof.
  intros Hrun. split; [|split; [|split]].
  - intros r e Hpc He.
    destruct (fetch_error_step s r e Hpc He) as (s1 & E & Ht & Hs & _ & Hst & Hl & Hpc1).
    exists s1. repeat split; try done.
    intros Hst1. unfold step. rewrite Hpc1, Hst1. eexists. split; [done|].
    split; [done|]. simpl. by rewrite Hl.
  - intros es. destruct (failing_rounds_run es init) as (s' & E & ? & ? & ? & Hs & Ho & Hd);
      [done..|].
    exists s'. repeat split; try done.
    + rewrite Ho. simpl. by rewrite length_replicate.
  - intros Hpc. destruct (stop_inv_run l s Hrun) as [Hs Hr].
    destruct (Hr Hpc) as (t1 & t2 & Ht & Hin). split; [|by exists t1, t2].
    apply Hs. rewrite Ht. apply elem_of_app. by left.
  - intros Hnin. by eapply (never_stopped_never_returns l init).
Qed.

Lemma cursor_of_snoc l u : cursor_of (l ++ [u]) = ID u.
Proof. unfold cursor_of. by rewrite last_snoc. Qed.

Lemma cursor_inv_step s a s' : cursor_inv s -> step p s a = Some s' -> cursor_inv s'.
Proof.
  intros [Hc Hf] E. apply step_inv in E. unfold cursor_inv, sent, offsets, pending in *.
  destruct E as [[-> ->]|[(->&H&Hst&->)|[(->&H&Hst&->)|[(r&e&->&H&?&->)|[(r&->&H&?&->)|(u&rest&->&H&->)]]]]];
    simpl; rewrite ?H in *.
  - rewrite sent_of_snoc, offsets_of_snoc. simpl. rewrite !app_nil_r.
    split; [done|]. intros Hpc. apply Hf. by destruct (pc s).
  - rewrite sent_of_snoc. simpl. by rewrite !app_nil_r in *.
  - rewrite sent_of_snoc, offsets_of_snoc. simpl. rewrite !app_nil_r in *.
    split; [done|]. intros _. apply last_snoc.
  - rewrite sent_of_snoc. simpl. by rewrite !app_nil_r in *.
  - destruct (updates r) as [|u rest]; simpl; [done|].
    split; [|done]. by rewrite cursor_of_snoc.
  - rewrite cursor_of_snoc in Hc. destruct rest as [|u' rest]; simpl.
    + rewrite sent_of_snoc. simpl. rewrite app_nil_r, cursor_of_snoc. done.
    + rewrite sent_of_snoc. simpl. rewrite cursor_of_snoc. done.
Qed.

Lemma cursor_inv_run l s : run p l init = Some s -> cursor_inv s.
Proof. apply (run_invariant cursor_inv); [apply cursor_inv_step | done]. Qed.

(** C9. A step either leaves [latestUpd] alone or sets it to the
    identifier of the update it then sends on [dest]; so the cursor is [0]
    until a delivery begins and afterwards the identifier of the update
    delivered last (of the one being sent, while a send is under way).  A
    failed call of [getUpdates] leaves the cursor alone, and the retry
    asks for the same offset again. *)
Theorem C9_cursor_follows_deliveries l s :
  run p l init = Some s ->
  latestUpd s = cursor_of (sent s ++ pending s) /\
  (pending s = [] -> sent s = [] -> latestUpd s = 0) /\
  (pending s = [] -> forall u, last (sent s) = Some u -> latestUpd s = ID u) /\
  (forall a s', step p s a = Some s' ->
     (latestUpd s' = latestUpd s /\ (pending s' = [] \/ pending s' = pending s)) \/
     (exists u, pending s' = [u] /\ latestUpd s' = ID u /\
        exists s'', step p s' DestAccepts = Some s'' /\ sent s'' = sent s' ++ [u])) /\
  (forall r e, pc s = InFetch -> err r = Some e -> stop s = false ->
     exists s2 o, run p [FetchReturns r; Select] s = Some s2 /\
       latestUpd s2 = latestUpd s /\ sent s2 = sent s /\
       last (offsets s) = Some o /\ offsets s2 = offsets s ++ [o]).
Proof.
  intros Hrun. destruct (cursor_inv_run l s Hrun) as [Hc Hf].
  split; [done|]. split; [|split; [|split]].
  - intros Hp Hs. by rewrite Hc, Hp, Hs.
  - intros Hp u Hu. rewrite Hc, Hp, app_nil_r. unfold cursor_of. by rewrite Hu.
  - intros a s' E. apply step_inv in E.
    assert (Hsend : forall s1 u rest, exists s'',
              step p (mkState (InSend u rest) (ID u) (stop s1) (trace s1)) DestAccepts
                = Some s'' /\
              sent s'' = sent_of (trace s1) ++ [u]).
    { intros s1 u rest. unfold step. simpl. eexists. split; [done|].
      rewrite sent_range. unfold sent. simpl. by rewrite sent_of_snoc. }
    destruct E as [[-> ->]|[(->&H&Hst&->)|[(->&H&Hst&->)|[(r&e&->&H&?&->)|[(r&->&H&?&->)|(u&rest&->&H&->)]]]]];
      unfold pending; simpl; rewrite ?H; auto.
    + destruct (updates r) as [|u rest]; simpl; [auto|].
      right. exists u. split; [done|]. split; [done|]. apply (Hsend s).
    + destruct rest as [|u' rest]; simpl; [auto|].
      right. exists u'. split; [done|]. split; [done|].
      apply (Hsend (emit s [EvSend u])).
  - intros r e Hpc He Hst.
    destruct (fetch_error_step s r e Hpc He) as (s1 & E & Ht & Hs & Ho & Hst1 & Hl & Hpc1).
    cbn [run]. rewrite E. unfold step. rewrite Hpc1, Hst1, Hst.
    eexists. exists (int_add (latestUpd s) 1). split; [done|].
    unfold sent, offsets in *. simpl.
    rewrite sent_of_snoc, offsets_of_snoc, Hs, Ho, Hl. simpl. rewrite app_nil_r. auto.
Qed.

Lemma increasing_above_spec lo l :
  increasing_above lo l = true ->
  StronglySorted id_lt l /\ Forall (fun u => lo < ID u < int_max) l.
Proof.
  revert lo. induction l as [|u l IH]; intros lo H; simpl in H.
  - split; constructor.
  - apply andb_prop in H as [H Hl]. apply andb_prop in H as [H1 H2].
    apply Z.ltb_lt in H1, H2. destruct (IH _ Hl) as [Hs Hf]. split.
    + constructor; [done|]. eapply Forall_impl; [exact Hf|].
      intros v Hv. simpl in Hv. unfold id_lt. lia.
    + constructor; [lia|]. eapply Forall_impl; [exact Hf|]. intros v Hv. simpl in Hv. lia.
Qed.

Lemma served_inv_step s a s' :
  served_inv s ->
  match a with FetchReturns r => contract (int_add (latestUpd s) 1) r = true | _ => True end ->
  step p s a = Some s' -> served_inv s'.
Proof.
  intros (Hc & Hsort & Hq & Hle & Hhd) Hserved E. apply step_inv in E.
  unfold served_inv, sent, queue in *.
  destruct E as [[-> ->]|[(->&H&Hst&->)|[(->&H&Hst&->)|[(r&e&->&H&?&->)|[(r&->&H&He&->)|(u&rest&->&H&->)]]]]];
    simpl; rewrite ?H in *; rewrite ?sent_of_snoc; simpl; rewrite ?app_nil_r in *.
  - done.
  - repeat split; try done; lia.
  - repeat split; try done; lia.
  - repeat split; try done; lia.
  - unfold contract in Hserved. rewrite He in Hserved.
    rewrite int_add_1 in Hserved by (unfold in_int, int_min; lia).
    replace (latestUpd s + 1 - 1) with (latestUpd s) in Hserved by lia.
    apply increasing_above_spec in Hserved as [Hs Hf].
    destruct (updates r) as [|u rest]; simpl; rewrite ?H, ?app_nil_r; [done|].
    apply Forall_cons in Hf as [Hu Hf].
    split; [lia|]. split; [|split; [|split]].
    + apply StronglySorted_app_2; [|done..].
      intros x1 x2 Hx1 Hx2. rewrite Forall_forall in Hle. apply Hle in Hx1.
      assert (latestUpd s < ID x2); [|unfold id_lt; lia].
      apply elem_of_cons in Hx2 as [->|Hx2]; [lia|].
      rewrite Forall_forall in Hf. apply Hf in Hx2. lia.
    + constructor; [lia|]. eapply Forall_impl; [exact Hf|]. intros v Hv. simpl in Hv. lia.
    + eapply Forall_impl; [exact Hle|]. intros v Hv. simpl in Hv. lia.
    + intros u0 rest0 [= <- _]. done.
  - specialize (Hhd _ _ eq_refl). apply Forall_cons in Hq as [Hu Hq].
    destruct rest as [|u' rest]; simpl; rewrite sent_of_snoc; simpl.
    + rewrite app_nil_r. split; [lia|]. split; [done|]. split; [done|].
      split; [|done].
      apply Forall_app. split; [done|]. constructor; [lia | constructor].
    + apply Forall_cons in Hq as [Hu' Hq].
      assert (Hlt : ID u < ID u').
      { apply StronglySorted_app_1_r in Hsort. apply StronglySorted_cons in Hsort as [Hf _].
        by apply Forall_cons in Hf as [? _]. }
      split; [lia|]. split; [|split; [|split]].
      * by rewrite <- app_assoc.
      * by constructor.
      * apply Forall_app. split.
        -- eapply Forall_impl; [exact Hle|]. intros v Hv. simpl in Hv. lia.
        -- constructor; [lia | constructor].
      * intros u0 rest0 [= <- _]. done.
Qed.

Lemma served_inv_run l s s' :
  served_inv s -> well_served p l s = true -> run p l s = Some s' -> served_inv s'.
Proof.
  revert s. induction l as [|a l IH]; intros s Hinv Hw Hrun; simpl in *.
  - by inversion Hrun; subst.
  - destruct (step p s a) as [s1|] eqn:E; [|done].
    apply andb_prop in Hw as [Ha Hw].
    apply (IH s1); [|done..].
    eapply served_inv_step; [done| |done]. by destruct a.
Qed.

(** C1 (amended). As long as every successful answer of [getUpdates]
    lists updates in strictly increasing order of identifier, none below
    the offset asked for and none with the largest [int]: the cursor is at
    or above every identifier delivered so far, the next request asks for
    an offset above all of them, and identifiers are delivered in strictly
    increasing order, so that nothing at or below the cursor is delivered
    again. *)
Theorem C1_cursor_monotone_when_served l s :
  well_served p l init = true ->
  run p l init = Some s ->
  Forall (fun u => ID u <= latestUpd s) (sent s) /\
  StronglySorted id_lt (sent s ++ queue s) /\
  (forall u, u ∈ queue s -> latestUpd s <= ID u) /\
  (forall s', pc s = AtSelect -> stop s = false -> step p s Select = Some s' ->
     offsets s' = offsets s ++ [latestUpd s + 1] /\
     Forall (fun u => ID u < latestUpd s + 1) (sent s)).
Proof.
  intros Hw Hrun.
  assert (Hinit : served_inv init).
  { unfold served_inv. simpl. repeat split; try done; try constructor. }
  destruct (served_inv_run l init s Hinit Hw Hrun) as (Hc & Hsort & Hq & Hle & Hhd).
  split; [done|]. split; [done|]. split.
  - intros u Hu. destruct (queue s) as [|u0 rest] eqn:Eq; [by apply elem_of_nil in Hu|].
    rewrite (Hhd _ _ eq_refl). apply elem_of_cons in Hu as [->|Hu]; [lia|].
    apply StronglySorted_app_1_r in Hsort. apply StronglySorted_cons in Hsort as [Hf _].
    rewrite Forall_forall in Hf. apply Hf in Hu. unfold id_lt in Hu. lia.
  - intros s' Hpc Hst E. unfold step in E. rewrite Hpc, Hst in E. inversion E; subst.
    unfold offsets. simpl. rewrite offsets_of_snoc. simpl.
    rewrite int_add_1 by (unfold in_int, int_min; lia). split; [done|].
    eapply Forall_impl; [exact Hle|]. intros v Hv. simpl in Hv. lia.
Qed.

End LongPollerFacts.

(** ** Concrete runs of LongPoller.Poll *)

(** Evaluate a concrete run. *)
Ltac run_vm := vm_compute; reflexivity.

Lemma C5_select_returns_or_fetches_witness :
  LP.pc LP.init = LP.AtSelect /\
  in_int (LP.latestUpd LP.init) /\ LP.latestUpd LP.init < int_max /\
  exists s', LP.step lp10 LP.init LP.Select = Some s' /\
             LP.trace s' = [LP.EvGetUpdates 1 10] /\
             LP.latestUpd LP.init < int_add (LP.latestUpd LP.init) 1.
Proof.
  assert (Hin : in_int (LP.latestUpd LP.init)) by (split; discriminate).
  assert (Hlt : LP.latestUpd LP.init < int_max) by reflexivity.
  split; [reflexivity|]. split; [exact Hin|]. split; [exact Hlt|].
  destruct (C5_select_returns_or_fetches lp10 LP.init) as [H _].
  destruct (H eq_refl) as (s' & E & [(Hst & _)|(_ & _ & Ht & Hgt)]).
  - discriminate Hst.
  - exists s'. split; [exact E|]. split; [exact Ht|]. exact (proj2 (Hgt Hin Hlt)).
Defined.

(** C5, as stated, fails at the largest [int]: after an update with that
    identifier was delivered the cursor is [int_max], and the next request
    passes [latestUpd+1], which has wrapped around to the smallest [int].
    That offset is not above the cursor. *)
Lemma C5_offset_wraps_at_max_int :
  exists s s', LP.run lp10 [LP.Select; LP.FetchReturns (fetched [upd int_max]);
                            LP.DestAccepts] LP.init = Some s /\
    LP.pc s = LP.AtSelect /\ LP.stop s = false /\ LP.latestUpd s = int_max /\
    LP.step lp10 s LP.Select = Some s' /\
    LP.trace s' = LP.trace s ++ [LP.EvGetUpdates int_min 10] /\
    ~ LP.latestUpd s < int_min.
Proof.
  eexists. eexists. split; [run_vm|]. do 3 (split; [reflexivity|]).
  split; [run_vm|]. split; [reflexivity|]. discriminate.
Qed.

(** C9, as stated, fails between the assignment and the send: [getUpdates]
    has answered with the updates 5 and 7, the loop has set the cursor to 5
    and is in its send of the update 5.  Nothing has been delivered, and the
    cursor is neither 0 nor the identifier of a delivered update. *)
Lemma C9_cursor_ahead_of_delivery :
  exists s, LP.run lp10 [LP.Select; LP.FetchReturns (fetched [upd 5; upd 7])] LP.init
            = Some s /\
    LP.pc s = LP.InSend (upd 5) [upd 7] /\
    LP.sent s = [] /\ LP.latestUpd s = 5 /\
    LP.latestUpd s <> 0 /\ ~ (exists u, last (LP.sent s) = Some u /\ LP.latestUpd s = ID u).
Proof.
  eexists. split; [run_vm|]. do 3 (split; [reflexivity|]).
  split; [discriminate|]. intros (u & Hu & _). discriminate Hu.
Qed.

(** C2, as stated, fails: the stop signal is raised while the first call of
    [getUpdates] is in flight; the update that call returns is written to
    [dest] all the same, and only the next [select] sees the signal. *)
Lemma C2_in_flight_fetch_is_delivered :
  let sched := [LP.Select; LP.RaiseStop; LP.FetchReturns (fetched [upd 1]);
                LP.DestAccepts; LP.Select] in
  LP.stop_before_fetch_completes sched = true /\
  exists s, LP.run lp10 sched LP.init = Some s /\
    LP.trace s = [LP.EvGetUpdates 1 10; LP.EnvStop; LP.EvSend (upd 1); LP.EvReturn] /\
    LP.sent s = [upd 1] /\ LP.sent s <> [].
Proof.
  split; [reflexivity|]. eexists. split; [reflexivity|].
  split; [reflexivity|]. split; [reflexivity | discriminate].
Qed.

Lemma C2_stop_before_first_select_witness :
  exists s, LP.run lp10 [LP.RaiseStop; LP.Select] LP.init = Some s /\
            LP.sent s = [] /\ LP.offsets s = [] /\ LP.pc s = LP.Returned.
Proof.
  eexists. split; [reflexivity|].
  destruct (C2_stop_before_first_select lp10 [LP.Select] _ eq_refl) as (Hs & Ho & _ & Hr).
  split; [exact Hs|]. split; [exact Ho|]. apply Hr. apply list_elem_of_here.
Defined.

Lemma C7_fetch_error_reported_and_retried_witness :
  exists s, LP.run lp10 [LP.Select] LP.init = Some s /\
    LP.pc s = LP.InFetch /\
    exists s1, LP.step lp10 s (LP.FetchReturns (failed (ErrNew "timeout"))) = Some s1 /\
      LP.trace s1 = LP.trace s ++ [LP.EvDebug (ErrWrap (ErrNew "timeout") "getUpdates() failed")] /\
      LP.sent s1 = [] /\ LP.pc s1 = LP.AtSelect.
Proof.
  eexists. split; [reflexivity|]. split; [reflexivity|].
  destruct (C7_fetch_error_reported_and_retried lp10 [LP.Select] _ eq_refl) as (H & _).
  destruct (H (failed (ErrNew "timeout")) (ErrNew "timeout") eq_refl eq_refl)
    as (s1 & E & Ht & Hs & _ & Hpc & _).
  exists s1. split; [exact E|]. split; [exact Ht|]. split; [exact Hs | exact Hpc].
Defined.

Lemma C9_cursor_follows_deliveries_witness :
  exists s, LP.run lp10 [LP.Select; LP.FetchReturns (fetched [upd 5; upd 7]);
                         LP.DestAccepts; LP.DestAccepts; LP.Select] LP.init = Some s /\
    LP.latestUpd s = 7 /\
    exists s2 o, LP.run lp10 [LP.FetchReturns (failed (ErrNew "timeout")); LP.Select] s = Some s2 /\
      LP.latestUpd s2 = 7 /\ LP.offsets s2 = [1; 8] ++ [o].
Proof.
  eexists. split; [reflexivity|].
  destruct (C9_cursor_follows_deliveries lp10
              [LP.Select; LP.FetchReturns (fetched [upd 5; upd 7]);
               LP.DestAccepts; LP.DestAccepts; LP.Select] _ eq_refl)
    as (Hc & _ & _ & _ & H).
  split; [exact Hc|].
  destruct (H (failed (ErrNew "timeout")) (ErrNew "timeout") eq_refl eq_refl eq_refl)
    as (s2 & o & E & Hl & _ & _ & Ho).
  exists s2, o. split; [exact E|]. split; [exact Hl | exact Ho].
Defined.

(** C1, as stated, fails on answers of [getUpdates] that the loop does not
    expect but takes as they come.  An answer out of order: after
    delivering 5 and then 3 the cursor is 3, and the next request asks for
    offset 4, below the 5 just delivered.  An answer repeated: the update 7
    is delivered a second time while the cursor is already 7. *)
Lemma C1_cursor_below_delivered :
  (exists s, LP.run lp10 [LP.Select; LP.FetchReturns (fetched [upd 5; upd 3]);
                          LP.DestAccepts; LP.DestAccepts; LP.Select] LP.init = Some s /\
     LP.sent s = [upd 5; upd 3] /\ LP.latestUpd s = 3 /\ LP.offsets s = [1; 4] /\
     ~ Forall (fun u => ID u <= LP.latestUpd s) (LP.sent s)) /\
  (exists s s', LP.run lp10 [LP.Select; LP.FetchReturns (fetched [upd 7]); LP.DestAccepts;
                             LP.Select; LP.FetchReturns (fetched [upd 7])] LP.init = Some s /\
     LP.sent s = [upd 7] /\ LP.latestUpd s = 7 /\
     LP.step lp10 s LP.DestAccepts = Some s' /\ LP.sent s' = [upd 7; upd 7]).
Proof.
  split.
  - eexists. split; [reflexivity|]. do 3 (split; [reflexivity|]).
    intros H. apply Forall_cons in H as [H _]. vm_compute in H. by apply H.
  - eexists. eexists. split; [reflexivity|]. do 3 (split; [reflexivity|]). reflexivity.
Qed.

Lemma C1_cursor_monotone_when_served_witness :
  let sched := [LP.Select; LP.FetchReturns (fetched [upd 5; upd 7]);
                LP.DestAccepts; LP.DestAccepts; LP.Select;
                LP.FetchReturns (fetched [upd 9]); LP.DestAccepts] in
  LP.well_served lp10 sched LP.init = true /\
  exists s, LP.run lp10 sched LP.init = Some s /\
    LP.sent s = [upd 5; upd 7; upd 9] /\
    Forall (fun u => ID u <= LP.latestUpd s) (LP.sent s).
Proof.
  split; [reflexivity|]. eexists. split; [reflexivity|]. split; [reflexivity|].
  exact (proj1 (C1_cursor_monotone_when_served lp10
                  [LP.Select; LP.FetchReturns (fetched [upd 5; upd 7]);
                   LP.DestAccepts; LP.DestAccepts; LP.Select;
                   LP.FetchReturns (fetched [upd 9]); LP.DestAccepts] _ eq_refl eq_refl)).
Defined.

(** * MiddlewarePoller.Poll *)

Section MiddlewareFacts.
Import MP.
Context {P FS : Type}.
Variable p : MiddlewarePoller P FS.
Variable f0 : FS.

Lemma mp_run_invariant (I : State FS -> Prop) :
  (forall s a s', I s -> step p s a = Some s' -> I s') ->
  forall l s s', I s -> run p l s = Some s' -> I s'.
Proof.
  intros Hstep l. induction l as [|a l IH]; intros s s' Hs Hrun; simpl in Hrun.
  - by inversion Hrun; subst.
  - destruct (step p s a) as [s1|] eqn:E; [|done]. eauto.
Qed.

Lemma mp_step_inv (s : State FS) a s' :
  step p s a = Some s' ->
  (a = RaiseStop /\
     s' = mkState (pc s) (fenv s) true (relay s) (cap s) (stop2_closed s)
            (trace s ++ [EnvStop])) \/
  (exists u, a = InnerSend u /\ Z.of_nat (length (relay s)) < cap s /\
     s' = mkState (pc s) (fenv s) (stopped s) (relay s ++ [u]) (cap s)
            (stop2_closed s) (trace s ++ [EnvInner u])) \/
  (a = SelectStop /\ pc s = AtSelect /\ stopped s = true /\
     s' = mkState Returned (fenv s) (stopped s) (relay s) (cap s) true
            (trace s ++ shutdown)) \/
  (exists u q b u' f', a = SelectMiddle /\ pc s = AtSelect /\ relay s = u :: q /\
     filter p (fenv s) u = (b, u', f') /\
     s' = mkState (if b then InSend u' else AtSelect) f' (stopped s) q (cap s)
            (stop2_closed s) (trace s ++ [EvRecv middle (Some u); EvFilter u b u'])) \/
  (exists u, a = DestAccepts /\ pc s = InSend u /\
     s' = mkState AtSelect (fenv s) (stopped s) (relay s) (cap s) (stop2_closed s)
            (trace s ++ [EvSend dest u])).
Proof.
  intros E. destruct a; simpl in E.
  - left. split; [done | congruence].
  - right; left. exists u. destruct (Z.ltb_spec (Z.of_nat (length (relay s))) (cap s));
      [|done]. split; [done|]. split; [done | congruence].
  - do 2 right; left. destruct (pc s) eqn:Hpc; try done.
    destruct (stopped s) eqn:Hst; [|done]. unfold shutdown. repeat split; congruence.
  - do 3 right; left. destruct (pc s) eqn:Hpc; try done.
    destruct (relay s) as [|u q] eqn:Hq; [done|].
    destruct (filter p (fenv s) u) as [[b u'] f'] eqn:Hf.
    exists u, q, b, u', f'. repeat split; congruence.
  - do 4 right. destruct (pc s) eqn:Hpc; try done.
    exists u. repeat split; congruence.
Qed.

Lemma sieve_snoc (f : FS -> Update -> bool * Update * FS) g l u :
  sieve f g (l ++ [u]) =
  sieve f g l ++ [(u, (f (sieve_env f g l) u).1.1, (f (sieve_env f g l) u).1.2)].
Proof.
  revert g. induction l as [|v l IH]; intros g; simpl.
  - by destruct (f g u) as [[b u'] g'].
  - destruct (f g v) as [[b v'] g'] eqn:E. simpl. by rewrite IH.
Qed.

Lemma sieve_env_snoc (f : FS -> Update -> bool * Update * FS) g l u :
  sieve_env f g (l ++ [u]) = (f (sieve_env f g l) u).2.
Proof. revert g. induction l as [|v l IH]; intros g; simpl; [done | apply IH]. Qed.

Lemma passed_snoc cs a b o :
  passed (cs ++ [(a, b, o)]) = passed cs ++ (if b then [o] else []).
Proof.
  unfold passed. rewrite List.filter_app, fmap_app. simpl. unfold verdict_of. simpl.
  by destruct b.
Qed.

Lemma sent_of_app t1 t2 : sent_of (t1 ++ t2) = sent_of t1 ++ sent_of t2.
Proof. apply omap_app. Qed.
Lemma received_of_app t1 t2 : received_of (t1 ++ t2) = received_of t1 ++ received_of t2.
Proof. apply omap_app. Qed.
Lemma produced_of_app t1 t2 : produced_of (t1 ++ t2) = produced_of t1 ++ produced_of t2.
Proof. apply omap_app. Qed.
Lemma calls_of_app t1 t2 : calls_of (t1 ++ t2) = calls_of t1 ++ calls_of t2.
Proof. apply omap_app. Qed.

(** Split a history that grew by some events into its projections. *)
Ltac project :=
  simpl trace;
  rewrite ?sent_of_app, ?received_of_app, ?produced_of_app, ?calls_of_app;
  simpl; rewrite ?app_nil_r.

Lemma sieve_inv_step s a s' : sieve_inv p f0 s -> step p s a = Some s' -> sieve_inv p f0 s'.
Proof.
  intros (Hcap & Hlen & Hprod & Hcalls & Henv & Hsent) E. apply mp_step_inv in E.
  unfold sieve_inv, pending in *.
  destruct E as [[-> ->]|[(u&->&Hroom&->)|[(->&Hpc&Hst&->)|[(u&q&b&u'&f'&->&Hpc&Hq&Hf&->)|(u&->&Hpc&->)]]]];
    project.
  - done.
  - rewrite length_app. simpl. rewrite Hprod, <- app_assoc.
    repeat split; try done. lia.
  - rewrite Hpc in Hsent. simpl in Hsent. rewrite app_nil_r in Hsent. done.
  - rewrite Hq in *. simpl in Hlen. rewrite Hpc in Hsent. simpl in Hsent.
    rewrite app_nil_r in Hsent.
    rewrite sieve_snoc, sieve_env_snoc, <- Henv, Hf, Hcalls. simpl.
    rewrite <- Hcalls, passed_snoc, <- Hsent.
    split; [done|]. split; [lia|]. split; [by rewrite Hprod, <- app_assoc|].
    split; [done|]. split; [done|]. by destruct b; rewrite ?app_nil_r.
  - rewrite Hpc in Hsent. simpl in Hsent. done.
Qed.

Lemma sieve_inv_init : sieve_inv p f0 (init p f0).
Proof.
  unfold sieve_inv. simpl. repeat split; try done.
  unfold Poll_cap. destruct (1 <? Capacity p) eqn:E; [apply Z.ltb_lt in E|]; lia.
Qed.

Lemma sieve_inv_run l s : run p l (init p f0) = Some s -> sieve_inv p f0 s.
Proof. apply (mp_run_invariant (sieve_inv p f0)); [apply sieve_inv_step | apply sieve_inv_init]. Qed.

Lemma since_none Q t : Forall (fun e => Q e = false) t -> since Q t = [].
Proof.
  induction 1 as [|e t He _ IH]; simpl; [done|]. by rewrite He.
Qed.

Lemma since_first Q t1 e t2 :
  Forall (fun e => Q e = false) t1 -> Q e = true -> since Q (t1 ++ e :: t2) = t2.
Proof.
  intros H He. induction H as [|e1 t1 He1 _ IH]; simpl; [by rewrite He|].
  by rewrite He1.
Qed.

Lemma env_only_projections t :
  Forall (fun e => own e = false) t -> sent_of t = [] /\ received_of t = [].
Proof.
  induction 1 as [|e t He _ [IH1 IH2]]; [done|].
  destruct e; try discriminate He; simpl; done.
Qed.

Lemma frame_inv_step s a s' : frame_inv p s -> step p s a = Some s' -> frame_inv p s'.
Proof.
  intros (t & Ht & Hok & Hstop & Hcl & Hpc) E. apply mp_step_inv in E. unfold frame_inv.
  destruct E as [[-> ->]|[(u&->&Hroom&->)|[(->&Hpc'&Hst&->)|[(u&q&b&u'&f'&->&Hpc'&Hq&Hf&->)|(u&->&Hpc'&->)]]]];
    simpl; rewrite Ht, <- app_assoc.
  - exists (t ++ [EnvStop]). split; [done|]. split; [|split; [|split]].
    + apply Forall_app. split; [done|]. by constructor.
    + intros _. apply elem_of_app. right. by left.
    + done.
    + destruct (pc s).
      * apply Forall_app. split; [done|]. by constructor.
      * apply Forall_app. split; [done|]. by constructor.
      * destruct Hpc as (t1 & t2 & -> & H1 & Hin & H2).
        exists t1, (t2 ++ [EnvStop]). rewrite <- !app_assoc. split; [done|].
        split; [done|]. split; [done|]. apply Forall_app. split; [done|]. by constructor.
  - exists (t ++ [EnvInner u]). split; [done|]. split; [|split; [|split]].
    + apply Forall_app. split; [done|]. by constructor.
    + intros H. apply elem_of_app. left. auto.
    + done.
    + destruct (pc s).
      * apply Forall_app. split; [done|]. by constructor.
      * apply Forall_app. split; [done|]. by constructor.
      * destruct Hpc as (t1 & t2 & -> & H1 & Hin & H2).
        exists t1, (t2 ++ [EnvInner u]). rewrite <- !app_assoc. split; [done|].
        split; [done|]. split; [done|]. apply Forall_app. split; [done|]. by constructor.
  - rewrite Hpc' in Hpc. exists (t ++ shutdown). split; [done|]. split; [|split; [|split]].
    + apply Forall_app. split; [done|]. unfold shutdown. by repeat constructor.
    + intros H. apply elem_of_app. left. auto.
    + done.
    + exists t, []. split; [done|]. split; [done|]. split; [auto | constructor].
  - rewrite Hpc' in Hpc, Hcl.
    exists (t ++ [EvRecv middle (Some u); EvFilter u b u']).
    split; [done|]. split; [|split; [|split]].
    + apply Forall_app. split; [done|]. by repeat constructor.
    + intros H. apply elem_of_app. left. auto.
    + by destruct b.
    + destruct b; (apply Forall_app; split; [done|]; by repeat constructor).
  - rewrite Hpc' in Hpc, Hcl. exists (t ++ [EvSend dest u]).
    split; [done|]. split; [|split; [|split]].
    + apply Forall_app. split; [done|]. by repeat constructor.
    + intros H. apply elem_of_app. left. auto.
    + done.
    + apply Forall_app. split; [done|]. by repeat constructor.
Qed.

Lemma frame_inv_run l s : run p l (init p f0) = Some s -> frame_inv p s.
Proof.
  apply (mp_run_invariant (frame_inv p)); [apply frame_inv_step|].
  exists []. simpl. repeat split; try done.
Qed.

Lemma sieve_covers (f : FS -> Update -> bool * Update * FS) g l a :
  a ∈ l -> exists b u, (a, b, u) ∈ sieve f g l.
Proof.
  revert g. induction l as [|v l IH]; intros g Ha; [by apply elem_of_nil in Ha|].
  simpl. destruct (f g v) as [[b v'] g'] eqn:E.
  apply elem_of_cons in Ha as [->|Ha].
  - exists b, v'. by left.
  - destruct (IH g' Ha) as (b0 & u0 & Hin). exists b0, u0. by right.
Qed.

Lemma sieve_read_only (f : FS -> Update -> bool * Update * FS) g l a b u :
  read_only f -> (a, b, u) ∈ sieve f g l -> u = a.
Proof.
  intros Hro. revert g. induction l as [|v l IH]; intros g Hin; [by apply elem_of_nil in Hin|].
  simpl in Hin. specialize (Hro g v). destruct (f g v) as [[b' v'] g'] eqn:E. simpl in Hro.
  apply elem_of_cons in Hin as [Heq|Hin]; [congruence | eauto].
Qed.

(** C3. Every update that leaves the relay is taken by the loop's
    [select] and handed to the filter, once, in relay order; nothing leaves
    the relay any other way.  What the loop writes to [dest] (with the
    update whose send is under way) is what the calls that returned true
    left in [upd]: every forwarded update comes from a call that returned
    true, and when what a call left is not forwarded, that call returned
    false.  For a filter that leaves the update as it is this reads: each
    forwarded [U] had [filter(U)] return true, and each [U] taken from the
    relay and not forwarded had [filter(U)] return false. *)
Theorem C3_forwarded_iff_filter_true l s :
  run p l (init p f0) = Some s ->
  let taken := received_of (trace s) in
  let cs := sieve (filter p) f0 taken in
  produced_of (trace s) = taken ++ relay s /\
  calls_of (trace s) = cs /\
  sent_of (trace s) ++ pending s = passed cs /\
  (forall u, u ∈ sent_of (trace s) -> exists a, (a, true, u) ∈ cs) /\
  (forall a, a ∈ taken -> exists b u, (a, b, u) ∈ cs) /\
  (forall a b u, (a, b, u) ∈ cs -> u ∉ sent_of (trace s) ++ pending s -> b = false) /\
  (read_only (filter p) ->
   (forall u, u ∈ sent_of (trace s) -> (u, true, u) ∈ cs) /\
   (forall u, u ∈ taken -> u ∉ sent_of (trace s) ++ pending s -> (u, false, u) ∈ cs)).
Proof.
  intros Hrun taken cs.
  destruct (sieve_inv_run l s Hrun) as (_ & _ & Hprod & Hcalls & _ & Hsent).
  fold taken in Hprod, Hcalls. fold cs in Hcalls. rewrite Hcalls in Hsent.
  assert (Hfwd : forall u, u ∈ sent_of (trace s) -> exists a, (a, true, u) ∈ cs).
  { intros u Hu.
    assert (Hin : u ∈ passed cs) by (rewrite <- Hsent; apply elem_of_app; by left).
    unfold passed in Hin. apply list_elem_of_fmap in Hin as ([[a b] o] & -> & Hin).
    apply list_elem_of_In, filter_In in Hin as [Hin Hb].
    unfold verdict_of in Hb. simpl in Hb. subst b.
    exists a. by apply list_elem_of_In. }
  assert (Hdrop : forall a b u, (a, b, u) ∈ cs ->
            u ∉ sent_of (trace s) ++ pending s -> b = false).
  { intros a b u Hin Hnot. destruct b; [|done]. exfalso. apply Hnot.
    rewrite Hsent. unfold passed.
    apply (list_elem_of_fmap_2' out_of _ (a, true, u)); [|done].
    apply list_elem_of_In, filter_In. split; [by apply list_elem_of_In | done]. }
  split; [done|]. split; [done|]. split; [done|]. split; [done|].
  split; [intros a Ha; by apply sieve_covers|]. split; [done|].
  intros Hro. split.
  - intros u Hu. destruct (Hfwd u Hu) as (a & Hin).
    by rewrite <- (sieve_read_only _ _ _ _ _ _ Hro Hin) in Hin.
  - intros u Hu Hnot. destruct (sieve_covers (filter p) f0 taken u Hu) as (b & o & Hin).
    pose proof (sieve_read_only _ _ _ _ _ _ Hro Hin) as ->.
    by rewrite (Hdrop _ _ _ Hin Hnot) in Hin.
Qed.

Lemma passed_sieve_sublist g l :
  read_only (filter p) -> passed (sieve (filter p) g l) `sublist_of` l.
Proof.
  intros Hro. revert g. induction l as [|u l IH]; intros g; simpl; [done|].
  specialize (Hro g u). destruct (filter p g u) as [[b u'] g'] eqn:E. simpl in Hro.
  subst u'. unfold passed. simpl. unfold verdict_of at 1. simpl.
  destruct b; simpl.
  - apply sublist_skip, IH.
  - apply sublist_cons, IH.
Qed.

(** Whatever the filter does, what [Poll] writes to [dest] is, in relay
    order, what the accepting filter calls left in [upd], and the relay
    hands over the updates of the inner poller in the order it produced
    them.  For a filter that leaves the update it is given as it is, the
    sequence written to [dest] is therefore a subsequence of the sequence
    the inner poller produced. *)
Lemma read_only_forwards_subsequence l s :
  run p l (init p f0) = Some s ->
  sent_of (trace s) ++ pending s = passed (sieve (filter p) f0 (received_of (trace s))) /\
  produced_of (trace s) = received_of (trace s) ++ relay s /\
  (read_only (filter p) -> sent_of (trace s) `sublist_of` produced_of (trace s)).
Proof.
  intros Hrun. destruct (sieve_inv_run l s Hrun) as (_ & _ & Hprod & Hcalls & _ & Hsent).
  rewrite Hcalls in Hsent. split; [done|]. split; [done|].
  intros Hro. rewrite Hprod. apply sublist_inserts_r.
  transitivity (sent_of (trace s) ++ pending s); [by apply sublist_inserts_r|].
  rewrite Hsent. by apply passed_sieve_sublist.
Qed.

Lemma fill_relay us (s0 : State FS) :
  Z.of_nat (length (relay s0)) + Z.of_nat (length us) <= cap s0 ->
  exists s, run p (InnerSend <$> us) s0 = Some s /\
    relay s = relay s0 ++ us /\ cap s = cap s0 /\ pc s = pc s0.
Proof.
  revert s0. induction us as [|u us IH]; intros s0 Hle.
  - exists s0. simpl. by rewrite app_nil_r.
  - simpl in Hle. cbn [fmap list_fmap run]. unfold step at 1.
    destruct (Z.ltb_spec (Z.of_nat (length (relay s0))) (cap s0)); [|lia].
    set (s1 := mkState _ _ _ _ _ _ _).
    destruct (IH s1) as (s & Hrun & Hrel & Hcap & Hpc).
    { simpl. rewrite length_app. simpl. lia. }
    exists s. split; [done|]. simpl in *. by rewrite Hrel, <- app_assoc.
Qed.

(** C6 (amended). The capacity [Poll] asks [make] for is 1 for every
    [Capacity] of at most 1 (so for 0, for negative values and for what the
    constructor [Middleware] leaves) and [Capacity] above that.  If the
    buffer is within what [make] can allocate, the loop is entered with a
    relay of exactly that capacity: a send of the inner poller goes through
    precisely while the relay holds fewer updates than that, and the relay
    can be filled up to it.  If the buffer is beyond what [make] can
    allocate, [make] panics and no relay comes to be. *)
Theorem C6_relay_capacity elem :
  (Capacity p <= 1 -> Poll_cap p = 1) /\
  (1 < Capacity p -> Poll_cap p = Capacity p) /\
  (forall (inner : P) f, Poll_cap (Middleware inner f : MiddlewarePoller P FS) = 1) /\
  (elem * Poll_cap p <= max_alloc - hchan_size ->
   Poll_enter elem p f0 = Some (init p f0)) /\
  (max_alloc - hchan_size < elem * Poll_cap p -> Poll_enter elem p f0 = None) /\
  (forall l s, run p l (init p f0) = Some s ->
     cap s = Poll_cap p /\ Z.of_nat (length (relay s)) <= Poll_cap p /\
     head (trace s) = Some (EvMake middle (Poll_cap p)) /\
     (forall u, is_Some (step p s (InnerSend u)) <->
                Z.of_nat (length (relay s)) < Poll_cap p)) /\
  (forall us, Z.of_nat (length us) <= Poll_cap p ->
     exists s, run p (InnerSend <$> us) (init p f0) = Some s /\ relay s = us).
Proof.
  assert (Hpos : 1 <= Poll_cap p).
  { unfold Poll_cap. destruct (Z.ltb_spec 1 (Capacity p)); lia. }
  split; [|split; [|split; [|split; [|split; [|split]]]]].
  - intros H. unfold Poll_cap. destruct (Z.ltb_spec 1 (Capacity p)); [lia | done].
  - intros H. unfold Poll_cap. destruct (Z.ltb_spec 1 (Capacity p)); [done | lia].
  - done.
  - intros H. unfold Poll_enter, makechan.
    destruct (Z.ltb_spec (Poll_cap p) 0); [lia|].
    destruct (Z.ltb_spec (max_alloc - hchan_size) (elem * Poll_cap p)); [lia | done].
  - intros H. unfold Poll_enter, makechan.
    destruct (Z.ltb_spec (Poll_cap p) 0); [lia|].
    destruct (Z.ltb_spec (max_alloc - hchan_size) (elem * Poll_cap p)); [done | lia].
  - intros l s Hrun. destruct (sieve_inv_run l s Hrun) as (Hcap & Hlen & _).
    destruct (frame_inv_run l s Hrun) as (t & Ht & _).
    rewrite Ht, <- Hcap. split; [done|]. split; [done|]. split; [by rewrite Hcap|].
    intros u. unfold step.
    destruct (Z.ltb_spec (Z.of_nat (length (relay s))) (cap s)).
    + split; [done | by eexists].
    + split; [by intros [? ?] | lia].
  - intros us Hle. destruct (fill_relay us (init p f0)) as (s & Hrun & Hrel & _).
    { simpl. lia. }
    exists s. by split.
Qed.

Lemma returned_stays_mp l s s' :
  pc s = Returned -> run p l s = Some s' ->
  pc s' = Returned /\ sent_of (trace s') = sent_of (trace s) /\
  received_of (trace s') = received_of (trace s).
Proof.
  revert s. induction l as [|a l IH]; intros s Hpc Hrun; simpl in Hrun.
  - by inversion Hrun; subst.
  - destruct (step p s a) as [s1|] eqn:E; [|done]. apply mp_step_inv in E.
    destruct E as [[-> ->]|[(u&->&Hroom&->)|[(->&Hpc'&Hst&->)|[(u&q&b&u'&f'&->&Hpc'&Hq&Hf&->)|(u&->&Hpc'&->)]]]];
      try congruence.
    all: apply IH in Hrun; [|done]; simpl in Hrun;
      rewrite sent_of_app, received_of_app in Hrun; simpl in Hrun;
      by rewrite !app_nil_r in Hrun.
Qed.

(** C8 (amended). Once the loop has observed the outer stop signal (its
    [select] took the stop case) it writes nothing more to [dest]: it
    closes the derived stop signal and returns, so after that close no
    relay item is taken and none reaches [dest], whatever the inner poller
    still produces. *)
Theorem C8_nothing_forwarded_after_stop_observed l s :
  run p l (init p f0) = Some s ->
  sent_of (since is_stop_observed (trace s)) = [] /\
  sent_of (since is_stop2_closed (trace s)) = [] /\
  received_of (since is_stop2_closed (trace s)) = [] /\
  (stop2_closed s = true ->
   pc s = Returned /\
   forall l' s', run p l' s = Some s' ->
     sent_of (trace s') = sent_of (trace s) /\
     received_of (trace s') = received_of (trace s)).
Proof.
  intros Hrun. destruct (frame_inv_run l s Hrun) as (t & Ht & _ & _ & Hcl & Hpc).
  assert (Hsetup : Forall (fun e => is_stop_observed e = false /\ is_stop2_closed e = false)
                     (setup p)) by (by repeat constructor).
  assert (Hret : stop2_closed s = true -> pc s = Returned).
  { rewrite Hcl. by destruct (pc s). }
  destruct (pc s) eqn:E.
  1,2: rewrite !since_none
    by (rewrite Ht; apply Forall_app; split;
        (eapply Forall_impl; [eassumption|]; by intros e [? ?]));
    (do 3 (split; [done|])); intros Hx; by rewrite Hcl in Hx.
  destruct Hpc as (t1 & t2 & -> & H1 & _ & H2).
  destruct (env_only_projections t2 H2) as [Hs2 Hr2].
  assert (H0 : Forall (fun e => is_stop_observed e = false /\ is_stop2_closed e = false)
                 (setup p ++ t1)) by (apply Forall_app; by split).
  split; [|split; [|split]].
  - rewrite Ht.
    replace (setup p ++ t1 ++ shutdown ++ t2)
      with ((setup p ++ t1) ++ EvRecv stop None :: ([EvClose stop2; EvReturn] ++ t2))
      by (unfold shutdown; by rewrite <- !app_assoc).
    rewrite since_first; [| by eapply Forall_impl; [exact H0|]; intros e [? ?] | done].
    rewrite sent_of_app. simpl. by rewrite Hs2.
  - rewrite Ht.
    replace (setup p ++ t1 ++ shutdown ++ t2)
      with ((setup p ++ t1 ++ [EvRecv stop None]) ++ EvClose stop2 :: (EvReturn :: t2))
      by (unfold shutdown; by rewrite <- !app_assoc).
    rewrite since_first; [done | | done].
    rewrite app_assoc. apply Forall_app. split; [|by repeat constructor].
    eapply Forall_impl; [exact H0|]. by intros e [? ?].
  - rewrite Ht.
    replace (setup p ++ t1 ++ shutdown ++ t2)
      with ((setup p ++ t1 ++ [EvRecv stop None]) ++ EvClose stop2 :: (EvReturn :: t2))
      by (unfold shutdown; by rewrite <- !app_assoc).
    rewrite since_first; [done | | done].
    rewrite app_assoc. apply Forall_app. split; [|by repeat constructor].
    eapply Forall_impl; [exact H0|]. by intros e [? ?].
  - intros _. split; [done|]. intros l' s' Hrun'.
    by destruct (returned_stays_mp l' s s' E Hrun') as (_ & ? & ?).
Qed.




End MiddlewareFacts.

(** C4. For every predicate, every inner poller and every [Capacity]: the
    sequence of updates [Poll] has written to [dest] (also with the update
    whose send is under way) is a subsequence of the sequence the inner
    poller produced on the relay, in the same relative order; the loop only
    drops, it never reorders or repeats. *)
Theorem C4_forwarded_is_subsequence {P : Type} (inner : P) pr capacity l s :
  MP.run (mkMiddlewarePoller inner (MP.of_pred pr) capacity) l
    (MP.init (mkMiddlewarePoller inner (MP.of_pred pr) capacity) tt) = Some s ->
  MP.sent_of (MP.trace s) `sublist_of` MP.produced_of (MP.trace s) /\
  MP.sent_of (MP.trace s) ++ MP.pending s `sublist_of` MP.produced_of (MP.trace s).
Proof.
  intros Hrun.
  assert (Hro : MP.read_only (MP.of_pred pr)) by (intros g u; reflexivity).
  destruct (read_only_forwards_subsequence _ tt l s Hrun) as (Hsent & Hprod & Hsub).
  split; [by apply Hsub|].
  rewrite Hsent, Hprod. apply sublist_inserts_r.
  by apply (passed_sieve_sublist (mkMiddlewarePoller inner (MP.of_pred pr) capacity)).
Qed.

(** ** Concrete runs of MiddlewarePoller.Poll *)

Lemma C3_forwarded_iff_filter_true_witness :
  exists s, MP.run mp_above_6
              [MP.InnerSend (upd 5); MP.InnerSend (upd 7); MP.SelectMiddle;
               MP.SelectMiddle; MP.DestAccepts; MP.InnerSend (upd 9); MP.SelectMiddle]
              (MP.init mp_above_6 tt) = Some s /\
    MP.received_of (MP.trace s) = [upd 5; upd 7; upd 9] /\
    MP.sent_of (MP.trace s) = [upd 7] /\ MP.pending s = [upd 9] /\
    MP.calls_of (MP.trace s) = [(upd 5, false, upd 5); (upd 7, true, upd 7); (upd 9, true, upd 9)].
Proof.
  eexists. split; [run_vm|]. do 3 (split; [reflexivity|]).
  refine (proj1 (proj2 (C3_forwarded_iff_filter_true mp_above_6 tt
                   [MP.InnerSend (upd 5); MP.InnerSend (upd 7); MP.SelectMiddle;
                    MP.SelectMiddle; MP.DestAccepts; MP.InnerSend (upd 9); MP.SelectMiddle]
                   _ _))).
  run_vm.
Defined.

Lemma C4_forwarded_is_subsequence_witness :
  exists s, MP.run mp_above_6
              [MP.InnerSend (upd 5); MP.InnerSend (upd 7); MP.SelectMiddle;
               MP.SelectMiddle; MP.DestAccepts; MP.InnerSend (upd 9)]
              (MP.init mp_above_6 tt) = Some s /\
    MP.produced_of (MP.trace s) = [upd 5; upd 7; upd 9] /\
    MP.sent_of (MP.trace s) = [upd 7] /\
    MP.sent_of (MP.trace s) `sublist_of` MP.produced_of (MP.trace s).
Proof.
  eexists. split; [run_vm|]. do 2 (split; [reflexivity|]).
  refine (proj1 (C4_forwarded_is_subsequence tt (fun u => 6 <? ID u) 4
                   [MP.InnerSend (upd 5); MP.InnerSend (upd 7); MP.SelectMiddle;
                    MP.SelectMiddle; MP.DestAccepts; MP.InnerSend (upd 9)]
                   _ _)).
  run_vm.
Defined.

(** C6, as stated, fails for a [Capacity] beyond what [make] can allocate:
    with the largest [int] as [Capacity] (more than 1) the capacity asked
    for is that number, [make] panics, and there is no relay at all.  This
    is so already for an [Update] of 8 bytes, the size of its [ID] alone. *)
Lemma C6_huge_capacity_panics :
  1 < Capacity mp_huge /\ MP.Poll_cap mp_huge = int_max /\
  MP.makechan 8 (MP.Poll_cap mp_huge) = None /\
  MP.Poll_enter 8 mp_huge tt = None.
Proof. repeat split. Qed.

Lemma C6_relay_capacity_witness :
  Capacity mp_all <= 1 /\ MP.Poll_cap mp_all = 1 /\
  1 < Capacity mp_above_6 /\ MP.Poll_cap mp_above_6 = 4 /\
  64 * MP.Poll_cap mp_above_6 <= MP.max_alloc - MP.hchan_size /\
  MP.Poll_enter 64 mp_above_6 tt = Some (MP.init mp_above_6 tt) /\
  MP.max_alloc - MP.hchan_size < 64 * MP.Poll_cap mp_huge /\
  MP.Poll_enter 64 mp_huge tt = None /\
  exists s, MP.run mp_above_6 (MP.InnerSend <$> [upd 1; upd 2; upd 3; upd 4])
              (MP.init mp_above_6 tt) = Some s /\
    MP.relay s = [upd 1; upd 2; upd 3; upd 4] /\
    ~ is_Some (MP.step mp_above_6 s (MP.InnerSend (upd 5))).
Proof.
  assert (H1 : Capacity mp_all <= 1) by (vm_compute; discriminate).
  assert (H4 : 1 < Capacity mp_above_6) by reflexivity.
  assert (Hfit : 64 * MP.Poll_cap mp_above_6 <= MP.max_alloc - MP.hchan_size)
    by (vm_compute; discriminate).
  assert (Hbig : MP.max_alloc - MP.hchan_size < 64 * MP.Poll_cap mp_huge) by reflexivity.
  split; [exact H1|].
  split; [exact (proj1 (C6_relay_capacity mp_all tt 64) H1)|].
  split; [exact H4|].
  split; [exact (proj1 (proj2 (C6_relay_capacity mp_above_6 tt 64)) H4)|].
  split; [exact Hfit|].
  split; [exact (proj1 (proj2 (proj2 (proj2 (C6_relay_capacity mp_above_6 tt 64)))) Hfit)|].
  split; [exact Hbig|].
  split; [exact (proj1 (proj2 (proj2 (proj2 (proj2 (C6_relay_capacity mp_huge tt 64))))) Hbig)|].
  eexists. split; [run_vm|]. split; [reflexivity|].
  lazymatch goal with
  | |- ~ is_Some (MP.step _ ?s _) =>
      assert (Hrun : MP.run mp_above_6 (MP.InnerSend <$> [upd 1; upd 2; upd 3; upd 4])
                       (MP.init mp_above_6 tt) = Some s) by run_vm;
      destruct (proj1 (proj2 (proj2 (proj2 (proj2 (proj2
                  (C6_relay_capacity mp_above_6 tt 64%Z))))))
                  (MP.InnerSend <$> [upd 1; upd 2; upd 3; upd 4]) s Hrun)
        as (_ & _ & _ & Hroom)
  end.
  intros Hsome. apply (Hroom (upd 5)) in Hsome. vm_compute in Hsome. discriminate Hsome.
Defined.

(** C8, as stated, fails: with the outer stop signal up and an item on the
    relay both cases of the [select] are ready, and Go picks either.  Here
    the relay case is picked twice after the stop signal was raised (the
    second item was even produced after it), and two updates are written to
    [dest] before the stop case is taken. *)
Lemma C8_two_forwarded_after_stop_raised :
  exists s, MP.run mp_all
              [MP.InnerSend (upd 1); MP.RaiseStop; MP.SelectMiddle; MP.DestAccepts;
               MP.InnerSend (upd 2); MP.SelectMiddle; MP.DestAccepts; MP.SelectStop]
              (MP.init mp_all tt) = Some s /\
    MP.pc s = MP.Returned /\
    MP.sent_of (MP.since MP.is_stop_raised (MP.trace s)) = [upd 1; upd 2] /\
    (1 < length (MP.sent_of (MP.since MP.is_stop_raised (MP.trace s))))%nat.
Proof.
  eexists. split; [run_vm|]. split; [reflexivity|]. split; [run_vm|].
  vm_compute. lia.
Qed.

Lemma C8_nothing_forwarded_after_stop_observed_witness :
  exists s, MP.run mp_all
              [MP.InnerSend (upd 1); MP.RaiseStop; MP.SelectMiddle; MP.DestAccepts;
               MP.SelectStop; MP.InnerSend (upd 2)]
              (MP.init mp_all tt) = Some s /\
    MP.stop2_closed s = true /\
    MP.produced_of (MP.since MP.is_stop2_closed (MP.trace s)) = [upd 2] /\
    MP.relay s = [upd 2] /\
    MP.sent_of (MP.since MP.is_stop_observed (MP.trace s)) = [] /\
    MP.pc s = MP.Returned.
Proof.
  eexists. split; [run_vm|]. do 3 (split; [run_vm|]).
  lazymatch goal with
  | |- _ /\ MP.pc ?s = _ =>
      destruct (C8_nothing_forwarded_after_stop_observed mp_all tt
                  [MP.InnerSend (upd 1); MP.RaiseStop; MP.SelectMiddle; MP.DestAccepts;
                   MP.SelectStop; MP.InnerSend (upd 2)] s ltac:(run_vm))
        as (Hs & _ & _ & Hr)
  end.
  split; [exact Hs | exact (proj1 (Hr eq_refl))].
Defined.


(** * More about LongPoller.Poll *)

Section LongPollerMore.
Import LP.
Variable p : LongPoller.

Lemma delivered_grows l s s' :
  run p l s = Some s' ->
  sent s' ++ queue s' = sent s ++ queue s ++ answered l.
Proof.
  revert s. induction l as [|a l IH]; intros s Hrun; simpl in Hrun.
  - inversion Hrun; subst. unfold answered. simpl. by rewrite app_nil_r.
  - destruct (step p s a) as [s1|] eqn:E; [|done].
    rewrite (IH _ Hrun). change (answered (a :: l)) with (answer_of a ++ answered l).
    apply step_inv in E. unfold sent, queue in *.
    destruct E as [[-> ->]|[(->&H&?&->)|[(->&H&?&->)|[(r&e&->&H&He&->)|[(r&->&H&He&->)|(u&rest&->&H&->)]]]]];
      simpl; rewrite ?H, ?He; simpl; rewrite ?sent_of_snoc; simpl; rewrite ?app_nil_r; try done.
    + by destruct (updates r).
    + destruct rest; simpl; rewrite sent_of_snoc; simpl; by rewrite <- ?app_assoc, ?app_nil_r.
Qed.

(** X1. Up to any point of a run, the updates written to [dest], followed
    by those of the current answer still to be written, are exactly the
    updates of the answers [getUpdates] gave without an error, in the order
    it gave them: nothing is dropped, repeated or reordered, and an answer
    that comes with an error is discarded with all its updates. *)
Theorem X1_delivers_what_was_fetched l s :
  run p l init = Some s ->
  sent s ++ queue s = answered l /\
  (queue s = [] -> sent s = answered l) /\
  (pc s = Returned -> sent s = answered l).
Proof.
  intros Hrun. pose proof (delivered_grows l init s Hrun) as H. simpl in H.
  split; [done|]. split.
  - intros Hq. by rewrite Hq, app_nil_r in H.
  - intros Hpc. unfold queue in H. by rewrite Hpc, app_nil_r in H.
Qed.

(** X2. A send on [dest] that is not accepted holds the loop: whatever
    else happens, the stop signal included, [Poll] stays in that send, calls
    [getUpdates] no more and does not return. *)
Theorem X2_blocked_send_holds_the_loop l s s' u rest :
  pc s = InSend u rest ->
  DestAccepts ∉ l ->
  run p l s = Some s' ->
  pc s' = InSend u rest /\ latestUpd s' = latestUpd s /\
  sent s' = sent s /\ offsets s' = offsets s.
Proof.
  revert s. induction l as [|a l IH]; intros s Hpc Hnin Hrun; simpl in Hrun.
  - by inversion Hrun; subst.
  - destruct (step p s a) as [s1|] eqn:E; [|done].
    apply not_elem_of_cons in Hnin as [Hne Hnin].
    apply step_inv in E.
    destruct E as [[-> ->]|[(->&H&?&->)|[(->&H&?&->)|[(r&e&->&H&He&->)|[(r&->&H&He&->)|(u'&rest'&->&H&->)]]]]];
      try congruence.
    apply IH in Hrun; [|done..]. destruct Hrun as (H1 & H2 & H3 & H4).
    unfold sent, offsets in *. simpl in *.
    rewrite sent_of_snoc in H3. rewrite offsets_of_snoc in H4. simpl in *.
    by rewrite app_nil_r in *.
Qed.

Lemma snoc_split {A} (t : list A) e t1 x t2 :
  t ++ [e] = t1 ++ x :: t2 ->
  (t2 = [] /\ t = t1 /\ e = x) \/ (exists t2', t2 = t2' ++ [e] /\ t = t1 ++ x :: t2').
Proof.
  intros H. destruct (decide (t2 = [])) as [->|Hne].
  - left. apply (app_inj_tail t t1 e x) in H as [? ?]. done.
  - right. destruct (exists_last Hne) as (t2' & y & ->).
    rewrite app_comm_cons, app_assoc in H.
    apply app_inj_tail in H as [? ?]. subst. by exists t2'.
Qed.

Lemma requests_ok_step s a s' :
  cursor_inv s -> requests_ok p s -> step p s a = Some s' -> requests_ok p s'.
Proof.
  intros [Hc _] Hok E. apply step_inv in E. unfold requests_ok in *.
  assert (Hold : forall e, (forall o to, e <> EvGetUpdates o to) ->
            forall t1 o to t2, trace s ++ [e] = t1 ++ EvGetUpdates o to :: t2 ->
              o = int_add (cursor_of (sent_of t1)) 1 /\ to = Timeout p).
  { intros e He t1 o to t2 Ht. apply snoc_split in Ht as [(_ & _ & ->)|(t2' & _ & Ht)].
    - by destruct (He o to).
    - by apply (Hok _ _ _ _ Ht). }
  destruct E as [[-> ->]|[(->&H&?&->)|[(->&H&?&->)|[(r&e&->&H&He&->)|[(r&->&H&He&->)|(u&rest&->&H&->)]]]]];
    simpl; rewrite ?trace_range; simpl; try (apply Hold; discriminate).
  - intros t1 o to t2 Ht. apply snoc_split in Ht as [(_ & <- & Heq)|(t2' & _ & Ht)].
    + inversion Heq; subst. split; [|done]. rewrite Hc. unfold pending. rewrite H.
      by rewrite app_nil_r.
    + by apply (Hok _ _ _ _ Ht).
  - done.
Qed.

(** X3. Every call of [getUpdates] passes the poller's [Timeout] and, as
    offset, the identifier of the last update written to [dest] before the
    call plus one (Go's [+]); the first calls, before anything is
    delivered, ask for offset 1. *)
Theorem X3_requests_follow_deliveries l s :
  run p l init = Some s ->
  forall t1 o to t2, trace s = t1 ++ EvGetUpdates o to :: t2 ->
    o = int_add (cursor_of (sent_of t1)) 1 /\ to = Timeout p /\
    (sent_of t1 = [] -> o = 1).
Proof.
  intros Hrun.
  assert (H : cursor_inv s /\ requests_ok p s).
  { revert Hrun. apply (run_invariant p (fun s => cursor_inv s /\ requests_ok p s)).
    - intros s0 a s1 [Hc Hr] E. split; [by eapply cursor_inv_step | by eapply requests_ok_step].
    - split; [done|]. intros t1 o to t2 Ht. simpl in Ht. by destruct t1. }
  destruct H as [_ Hok]. intros t1 o to t2 Ht. destruct (Hok _ _ _ _ Ht) as [Ho Hto].
  split; [done|]. split; [done|]. intros Hnil. by rewrite Ho, Hnil.
Qed.

End LongPollerMore.

(** * More about MiddlewarePoller.Poll *)

Section MiddlewareMore.
Import MP.
Context {P FS : Type}.
Variable p : MiddlewarePoller P FS.
Variable f0 : FS.

Lemma sieve_length (f : FS -> Update -> bool * Update * FS) g l :
  length (sieve f g l) = length l.
Proof.
  revert g. induction l as [|u l IH]; intros g; simpl; [done|].
  destruct (f g u) as [[b u'] g']. simpl. by rewrite IH.
Qed.

Lemma passed_rejected_length cs :
  (length (passed cs) + length (rejected cs) = length cs)%nat.
Proof.
  unfold passed, rejected. rewrite !length_fmap.
  induction cs as [|c cs IH]; simpl; [done|].
  destruct (verdict_of c); simpl; lia.
Qed.

(** X5. Every update the inner poller put on the relay is accounted for:
    it was written to [dest], or is being written, or the filter returned
    false on it, or it still sits in the relay.  The loop loses none and
    invents none. *)
Theorem X5_every_update_accounted_for l s :
  run p l (init p f0) = Some s ->
  length (produced_of (trace s)) =
    (length (sent_of (trace s)) + length (pending s)
     + length (rejected (calls_of (trace s))) + length (relay s))%nat /\
  length (calls_of (trace s)) = length (received_of (trace s)).
Proof.
  intros Hrun. destruct (sieve_inv_run p f0 l s Hrun) as (_ & _ & Hprod & Hcalls & _ & Hsent).
  assert (Hlen : length (calls_of (trace s)) = length (received_of (trace s)))
    by (by rewrite Hcalls, sieve_length).
  split; [|done].
  rewrite Hprod, length_app, <- Hlen, <- (passed_rejected_length (calls_of (trace s))).
  by rewrite <- Hsent, length_app.
Qed.

(** X6. While its send on [dest] is not accepted the middleware does
    nothing else: it takes nothing from the relay, does not look at the
    stop signal, does not close the derived stop signal and does not
    return, however long the stop signal has been up. *)
Theorem X6_blocked_send_holds_the_middleware l s s' u :
  pc s = InSend u ->
  DestAccepts ∉ l ->
  run p l s = Some s' ->
  pc s' = InSend u /\ stop2_closed s' = stop2_closed s /\ fenv s' = fenv s /\
  sent_of (trace s') = sent_of (trace s) /\
  received_of (trace s') = received_of (trace s).
Proof.
  revert s. induction l as [|a l IH]; intros s Hpc Hnin Hrun; simpl in Hrun.
  - by inversion Hrun; subst.
  - destruct (step p s a) as [s1|] eqn:E; [|done].
    apply not_elem_of_cons in Hnin as [Hne Hnin].
    apply mp_step_inv in E.
    destruct E as [[-> ->]|[(v&->&Hroom&->)|[(->&Hpc'&Hst&->)|[(v&q&b&v'&f'&->&Hpc'&Hq&Hf&->)|(v&->&Hpc'&->)]]]];
      try congruence.
    all: apply IH in Hrun; [|done..]; destruct Hrun as (H1 & H2 & H3 & H4 & H5);
      simpl in *; rewrite sent_of_app in H4; rewrite received_of_app in H5; simpl in *;
      by rewrite app_nil_r in *.
Qed.

(** X7. When [Poll] returns it owes nothing: every update the filter
    accepted has been written to [dest].  What is lost at that point is what
    the relay still holds, which no filter call ever saw. *)
Theorem X7_returns_with_nothing_pending l s :
  run p l (init p f0) = Some s ->
  pc s = Returned ->
  sent_of (trace s) = passed (sieve (filter p) f0 (received_of (trace s))) /\
  produced_of (trace s) = received_of (trace s) ++ relay s /\
  length (calls_of (trace s)) = length (received_of (trace s)).
Proof.
  intros Hrun Hpc.
  destruct (sieve_inv_run p f0 l s Hrun) as (_ & _ & Hprod & Hcalls & _ & Hsent).
  unfold pending in Hsent. rewrite Hpc, app_nil_r, Hcalls in Hsent.
  split; [done|]. split; [done|]. by rewrite Hcalls, sieve_length.
Qed.

End MiddlewareMore.

Lemma passed_sieve_of_pred pr l :
  MP.passed (MP.sieve (MP.of_pred pr) tt l) = List.filter pr l.
Proof.
  induction l as [|u l IH]; [done|].
  cbn [List.filter]. unfold MP.passed in *. simpl. unfold MP.verdict_of at 1. simpl.
  destruct (pr u); simpl; by rewrite <- IH.
Qed.

(** X8. With a filter that is a plain predicate (it only reads the update
    and keeps no state), what the middleware writes to [dest], with the
    update whose send is under way, is the list of relay items it took,
    filtered by the predicate. *)
Theorem X8_plain_predicate_filters {P : Type} (inner : P) pr capacity l s :
  MP.run (mkMiddlewarePoller inner (MP.of_pred pr) capacity) l
    (MP.init (mkMiddlewarePoller inner (MP.of_pred pr) capacity) tt) = Some s ->
  MP.sent_of (MP.trace s) ++ MP.pending s = List.filter pr (MP.received_of (MP.trace s)) /\
  Forall (fun u => pr u = true) (MP.sent_of (MP.trace s)) /\
  MP.produced_of (MP.trace s) = MP.received_of (MP.trace s) ++ MP.relay s.
Proof.
  intros Hrun. destruct (sieve_inv_run _ tt l s Hrun) as (_ & _ & Hprod & Hcalls & _ & Hsent).
  rewrite Hcalls in Hsent. simpl in Hsent. rewrite passed_sieve_of_pred in Hsent.
  split; [done|]. split; [|done]. apply Forall_forall. intros u Hu.
  assert (Hin : u ∈ List.filter pr (MP.received_of (MP.trace s)))
    by (rewrite <- Hsent; apply elem_of_app; by left).
  apply list_elem_of_In, filter_In in Hin. tauto.
Qed.

(** * A middleware around a long poller *)

Section ChainFacts.
Context {FS : Type}.
Variable mw : MiddlewarePoller LongPoller FS.
Variable f0 : FS.

(** Take a step of the pair apart into the steps of the two loops. *)
Ltac chain_inv E :=
  unfold Chain.step in E;
  repeat match type of E with
  | context [LP.pc ?s] =>
      let Hpc := fresh "Hpc" in
      destruct (LP.pc s) as [| |?u ?rest|] eqn:Hpc; try discriminate E
  | context [MP.step ?m ?s ?b] =>
      let Eo := fresh "Eo" in
      destruct (MP.step m s b) as [?o|] eqn:Eo; cbn [mbind option_bind] in E;
      try discriminate E
  | context [LP.step ?m ?s ?b] =>
      let Ei := fresh "Ei" in
      destruct (LP.step m s b) as [?i|] eqn:Ei; cbn [mbind option_bind] in E;
      try discriminate E
  end;
  try (injection E as <-); cbn [Chain.inner Chain.outer].

(** One step of the pair is at most one step of each loop. *)
Lemma chain_step_outer c a c' :
  Chain.step mw c a = Some c' ->
  Chain.outer c' = Chain.outer c \/
  exists b, MP.step mw (Chain.outer c) b = Some (Chain.outer c').
Proof.
  intros E. destruct a; chain_inv E; eauto.
Qed.

Lemma chain_step_inner c a c' :
  Chain.step mw c a = Some c' ->
  LP.run (Poller mw) (Chain.inner_action a) (Chain.inner c) = Some (Chain.inner c').
Proof.
  intros E. destruct a; chain_inv E; cbn [Chain.inner_action LP.run]; try done.
  all: by rewrite Ei.
Qed.

Lemma lp_run_app lp l1 l2 s :
  LP.run lp (l1 ++ l2) s = LP.run lp l1 s ≫= LP.run lp l2.
Proof.
  revert s. induction l1 as [|a l1 IH]; intros s; simpl; [done|].
  destruct (LP.step lp s a); simpl; [apply IH | done].
Qed.

Lemma chain_run_inner l c c' :
  Chain.run mw l c = Some c' ->
  LP.run (Poller mw) (Chain.inner_sched l) (Chain.inner c) = Some (Chain.inner c').
Proof.
  revert c. induction l as [|a l IH]; intros c Hrun; simpl in Hrun.
  - by inversion Hrun.
  - destruct (Chain.step mw c a) as [c1|] eqn:E; [|done].
    apply chain_step_inner in E. apply IH in Hrun.
    change (Chain.inner_sched (a :: l)) with (Chain.inner_action a ++ Chain.inner_sched l).
    by rewrite lp_run_app, E.
Qed.

Lemma chain_outer_invariant (I : MP.State FS -> Prop) :
  (forall s a s', I s -> MP.step mw s a = Some s' -> I s') ->
  forall l c c', I (Chain.outer c) -> Chain.run mw l c = Some c' -> I (Chain.outer c').
Proof.
  intros Hstep l. induction l as [|a l IH]; intros c c' Hc Hrun; simpl in Hrun.
  - by inversion Hrun; subst.
  - destruct (Chain.step mw c a) as [c1|] eqn:E; [|done].
    apply (IH c1); [|done].
    destruct (chain_step_outer _ _ _ E) as [->|(b & Eb)]; eauto.
Qed.

Lemma chain_sieve_inv l c :
  Chain.run mw l (Chain.init mw f0) = Some c -> MP.sieve_inv mw f0 (Chain.outer c).
Proof.
  apply (chain_outer_invariant (MP.sieve_inv mw f0)).
  - apply sieve_inv_step.
  - apply sieve_inv_init.
Qed.

Lemma chain_frame_inv l c :
  Chain.run mw l (Chain.init mw f0) = Some c -> MP.frame_inv mw (Chain.outer c).
Proof.
  apply (chain_outer_invariant (MP.frame_inv mw)).
  - apply frame_inv_step.
  - by apply (frame_inv_run mw f0 []).
Qed.

Lemma mp_step_effect (s : MP.State FS) b s' :
  MP.step mw s b = Some s' ->
  MP.produced_of (MP.trace s') =
    MP.produced_of (MP.trace s) ++ match b with MP.InnerSend u => [u] | _ => [] end /\
  MP.stop2_closed s' = match b with MP.SelectStop => true | _ => MP.stop2_closed s end.
Proof.
  intros E. apply mp_step_inv in E.
  destruct E as [[-> ->]|[(u&->&Hroom&->)|[(->&Hpc&Hst&->)|[(u&q&b'&u'&f'&->&Hpc&Hq&Hf&->)|(u&->&Hpc&->)]]]];
    simpl; rewrite produced_of_app; simpl; by rewrite ?app_nil_r.
Qed.

Lemma lp_step_effect lp (s : LP.State) b s' :
  LP.step lp s b = Some s' ->
  LP.sent s' = LP.sent s ++ match b, LP.pc s with
                            | LP.DestAccepts, LP.InSend u _ => [u]
                            | _, _ => []
                            end /\
  LP.stop s' = match b with LP.RaiseStop => true | _ => LP.stop s end.
Proof.
  intros E. apply step_inv in E.
  destruct E as [[-> ->]|[(->&H&Hst&->)|[(->&H&Hst&->)|[(r&e&->&H&He&->)|[(r&->&H&He&->)|(u&rest&->&H&->)]]]]];
    rewrite ?sent_range, ?stop_range; unfold LP.sent; simpl; rewrite ?H;
    rewrite ?sent_of_snoc; simpl; rewrite ?app_nil_r; done.
Qed.

Lemma linked_step c a c' :
  Chain.linked c -> Chain.step mw c a = Some c' -> Chain.linked c'.
Proof.
  intros [Hp Hs] E. unfold Chain.linked.
  destruct a; chain_inv E;
    repeat match goal with
    | H : MP.step _ _ _ = Some _ |- _ => apply mp_step_effect in H as [? ?]
    | H : LP.step _ _ _ = Some _ |- _ => apply lp_step_effect in H as [? ?]
    end;
    rewrite ?Hpc in *; simpl in *; rewrite ?app_nil_r in *; split; congruence.
Qed.

Lemma linked_run l c :
  Chain.run mw l (Chain.init mw f0) = Some c -> Chain.linked c.
Proof.
  assert (H0 : Chain.linked (Chain.init mw f0)) by done.
  revert H0. generalize (Chain.init mw f0).
  induction l as [|a l IH]; intros c0 H0 Hrun; simpl in Hrun.
  - by inversion Hrun; subst.
  - destruct (Chain.step mw c0 a) as [c1|] eqn:E; [|done].
    eauto using linked_step.
Qed.

(** X9. End to end: the relay carries what the long poller sent, the long
    poller sent what [getUpdates] answered, and the middleware wrote to
    [dest] what the accepting filter calls left of the relay items it took.
    With a filter that leaves the updates alone, the sequence on [dest] is a
    subsequence of the concatenated answers of [getUpdates]. *)
Theorem X9_chain_end_to_end l c :
  Chain.run mw l (Chain.init mw f0) = Some c ->
  LP.sent (Chain.inner c) ++ LP.queue (Chain.inner c) = LP.answered (Chain.inner_sched l) /\
  LP.sent (Chain.inner c) =
    MP.received_of (MP.trace (Chain.outer c)) ++ MP.relay (Chain.outer c) /\
  MP.sent_of (MP.trace (Chain.outer c)) ++ MP.pending (Chain.outer c) =
    MP.passed (MP.sieve (filter mw) f0 (MP.received_of (MP.trace (Chain.outer c)))) /\
  (MP.read_only (filter mw) ->
   MP.sent_of (MP.trace (Chain.outer c)) `sublist_of` LP.answered (Chain.inner_sched l)).
Proof.
  intros Hrun.
  destruct (chain_sieve_inv l c Hrun) as (_ & _ & Hprod & Hcalls & _ & Hsent).
  destruct (linked_run l c Hrun) as [Hlink _].
  pose proof (delivered_grows _ _ _ _ (chain_run_inner _ _ _ Hrun)) as Hd. simpl in Hd.
  rewrite Hcalls in Hsent. rewrite Hlink in Hprod.
  split; [done|]. split; [done|]. split; [done|].
  intros Hro. rewrite <- Hd. apply sublist_inserts_r. rewrite Hprod.
  apply sublist_inserts_r.
  transitivity (MP.sent_of (MP.trace (Chain.outer c)) ++ MP.pending (Chain.outer c));
    [by apply sublist_inserts_r|].
  rewrite Hsent. by apply passed_sieve_sublist.
Qed.

(** X11. The long poller returns only after the middleware has closed the
    derived stop signal: as long as that signal is open the long poller
    keeps polling. *)
Theorem X11_inner_returns_after_outer l c :
  Chain.run mw l (Chain.init mw f0) = Some c ->
  LP.pc (Chain.inner c) = LP.Returned ->
  MP.stop2_closed (Chain.outer c) = true.
Proof.
  intros Hrun Hpc. destruct (linked_run l c Hrun) as [_ Hstop].
  destruct (stop_inv_run _ _ _ (chain_run_inner _ _ _ Hrun)) as [Hs Hr].
  destruct (Hr Hpc) as (t1 & t2 & Ht & Hin).
  rewrite <- Hstop. apply Hs. rewrite Ht. apply elem_of_app. by left.
Qed.

(** X12. The goroutine that is left behind: once the middleware has
    returned nobody takes from the relay, so a long poller whose send finds
    the relay full stays in that send for good.  It never returns, whatever
    happens next. *)
Theorem X12_inner_stuck_on_full_relay c u rest l' c' :
  MP.pc (Chain.outer c) = MP.Returned ->
  LP.pc (Chain.inner c) = LP.InSend u rest ->
  MP.cap (Chain.outer c) <= Z.of_nat (length (MP.relay (Chain.outer c))) ->
  Chain.run mw l' c = Some c' ->
  LP.pc (Chain.inner c') = LP.InSend u rest /\
  MP.relay (Chain.outer c') = MP.relay (Chain.outer c) /\
  LP.sent (Chain.inner c') = LP.sent (Chain.inner c).
Proof.
  revert c. induction l' as [|a l' IH]; intros c Hout Hin Hfull Hrun; simpl in Hrun.
  - by inversion Hrun; subst.
  - destruct (Chain.step mw c a) as [c1|] eqn:E; [|done].
    assert (H1 : MP.pc (Chain.outer c1) = MP.Returned /\
                 Chain.inner c1 = Chain.inner c /\
                 MP.relay (Chain.outer c1) = MP.relay (Chain.outer c) /\
                 MP.cap (Chain.outer c1) = MP.cap (Chain.outer c)).
    { destruct a; unfold Chain.step in E; simpl in E;
        rewrite ?Hout, ?Hin in E; simpl in E; try discriminate E.
      - by inversion E.
      - destruct (Z.ltb_spec (Z.of_nat (length (MP.relay (Chain.outer c))))
                    (MP.cap (Chain.outer c))); [lia | done]. }
    destruct H1 as (Hout1 & Hin1 & Hrel1 & Hcap1).
    apply IH in Hrun; [|congruence..].
    rewrite Hin1, Hrel1 in Hrun. done.
Qed.

End ChainFacts.

(** ** Concrete runs for the further properties *)

Lemma X1_delivers_what_was_fetched_witness :
  exists s, LP.run lp10
              [LP.Select; LP.FetchReturns (fetched [upd 5; upd 7]); LP.DestAccepts;
               LP.DestAccepts; LP.Select;
               LP.FetchReturns (mkFetch [upd 9] (Some (ErrNew "eof")));
               LP.Select; LP.FetchReturns (fetched [upd 8]); LP.DestAccepts] LP.init = Some s /\
    LP.queue s = [] /\ LP.sent s = [upd 5; upd 7; upd 8].
Proof.
  eexists. split; [run_vm|]. split; [reflexivity|].
  lazymatch goal with
  | |- LP.sent ?s = _ =>
      refine (proj1 (proj2 (X1_delivers_what_was_fetched lp10
                [LP.Select; LP.FetchReturns (fetched [upd 5; upd 7]); LP.DestAccepts;
                 LP.DestAccepts; LP.Select;
                 LP.FetchReturns (mkFetch [upd 9] (Some (ErrNew "eof")));
                 LP.Select; LP.FetchReturns (fetched [upd 8]); LP.DestAccepts] s _))
              eq_refl)
  end.
  run_vm.
Defined.

Lemma X2_blocked_send_holds_the_loop_witness :
  exists s s', LP.run lp10 [LP.Select; LP.FetchReturns (fetched [upd 5; upd 7])] LP.init
               = Some s /\
    LP.pc s = LP.InSend (upd 5) [upd 7] /\
    (LP.DestAccepts ∉ [LP.RaiseStop; LP.RaiseStop]) /\
    LP.run lp10 [LP.RaiseStop; LP.RaiseStop] s = Some s' /\
    LP.pc s' = LP.InSend (upd 5) [upd 7] /\ LP.offsets s' = LP.offsets s.
Proof.
  assert (Hnin : LP.DestAccepts ∉ [LP.RaiseStop; LP.RaiseStop]).
  { intros H. apply elem_of_cons in H as [H|H]; [discriminate H|].
    apply list_elem_of_singleton in H. discriminate H. }
  eexists. eexists. split; [run_vm|]. split; [reflexivity|]. split; [exact Hnin|].
  split; [run_vm|].
  lazymatch goal with
  | |- LP.pc ?s' = _ /\ _ = LP.offsets ?s =>
      destruct (X2_blocked_send_holds_the_loop lp10 [LP.RaiseStop; LP.RaiseStop] s s'
                  (upd 5) [upd 7] eq_refl Hnin ltac:(run_vm)) as (Hpc & _ & _ & Ho)
  end.
  split; [exact Hpc | exact Ho].
Defined.

Lemma X3_requests_follow_deliveries_witness :
  exists s, LP.run lp10
              [LP.Select; LP.FetchReturns (fetched [upd 5]); LP.DestAccepts; LP.Select]
              LP.init = Some s /\
    LP.trace s = [LP.EvGetUpdates 1 10; LP.EvSend (upd 5)] ++ LP.EvGetUpdates 6 10 :: [] /\
    6 = int_add (LP.cursor_of (LP.sent_of [LP.EvGetUpdates 1 10; LP.EvSend (upd 5)])) 1.
Proof.
  eexists. split; [run_vm|].
  lazymatch goal with
  | |- LP.trace ?s = _ /\ _ =>
      split; [reflexivity|];
      refine (proj1 (X3_requests_follow_deliveries lp10
                       [LP.Select; LP.FetchReturns (fetched [upd 5]); LP.DestAccepts;
                        LP.Select]
                       s _ [LP.EvGetUpdates 1 10; LP.EvSend (upd 5)] 6 10 [] eq_refl))
  end.
  run_vm.
Defined.

Lemma X5_every_update_accounted_for_witness :
  exists s, MP.run mp_above_6
              [MP.InnerSend (upd 5); MP.InnerSend (upd 7); MP.SelectMiddle;
               MP.SelectMiddle; MP.DestAccepts; MP.InnerSend (upd 9); MP.SelectMiddle;
               MP.InnerSend (upd 4)]
              (MP.init mp_above_6 tt) = Some s /\
    MP.sent_of (MP.trace s) = [upd 7] /\ MP.pending s = [upd 9] /\
    MP.rejected (MP.calls_of (MP.trace s)) = [upd 5] /\ MP.relay s = [upd 4] /\
    length (MP.produced_of (MP.trace s)) = 4%nat.
Proof.
  eexists. split; [run_vm|]. do 4 (split; [reflexivity|]).
  refine (proj1 (X5_every_update_accounted_for mp_above_6 tt
                   [MP.InnerSend (upd 5); MP.InnerSend (upd 7); MP.SelectMiddle;
                    MP.SelectMiddle; MP.DestAccepts; MP.InnerSend (upd 9); MP.SelectMiddle;
                    MP.InnerSend (upd 4)] _ _)).
  run_vm.
Defined.

Lemma X6_blocked_send_holds_the_middleware_witness :
  exists s s', MP.run mp_above_6 [MP.InnerSend (upd 7); MP.SelectMiddle]
                 (MP.init mp_above_6 tt) = Some s /\
    MP.pc s = MP.InSend (upd 7) /\
    MP.run mp_above_6 [MP.RaiseStop; MP.InnerSend (upd 8)] s = Some s' /\
    MP.pc s' = MP.InSend (upd 7) /\ MP.stop2_closed s' = false /\ MP.stopped s' = true.
Proof.
  assert (Hnin : MP.DestAccepts ∉ [MP.RaiseStop; MP.InnerSend (upd 8)]).
  { intros H. apply elem_of_cons in H as [H|H]; [discriminate H|].
    apply list_elem_of_singleton in H. discriminate H. }
  eexists. eexists. split; [run_vm|]. split; [reflexivity|].
  lazymatch goal with
  | |- MP.run _ _ ?s = Some ?s' /\ _ =>
      destruct (X6_blocked_send_holds_the_middleware mp_above_6
                  [MP.RaiseStop; MP.InnerSend (upd 8)] s _ (upd 7) eq_refl Hnin
                  ltac:(run_vm)) as (Hpc & Hcl & _)
  end.
  split; [run_vm|]. split; [exact Hpc|]. split; [exact Hcl | reflexivity].
Defined.

Lemma X7_returns_with_nothing_pending_witness :
  exists s, MP.run mp_above_6
              [MP.InnerSend (upd 5); MP.InnerSend (upd 7); MP.SelectMiddle;
               MP.SelectMiddle; MP.DestAccepts; MP.InnerSend (upd 9); MP.RaiseStop;
               MP.SelectStop]
              (MP.init mp_above_6 tt) = Some s /\
    MP.pc s = MP.Returned /\ MP.relay s = [upd 9] /\ MP.sent_of (MP.trace s) = [upd 7].
Proof.
  eexists. split; [run_vm|]. split; [reflexivity|]. split; [reflexivity|].
  lazymatch goal with
  | |- MP.sent_of (MP.trace ?s) = _ =>
      refine (proj1 (X7_returns_with_nothing_pending mp_above_6 tt
                       [MP.InnerSend (upd 5); MP.InnerSend (upd 7); MP.SelectMiddle;
                        MP.SelectMiddle; MP.DestAccepts; MP.InnerSend (upd 9);
                        MP.RaiseStop; MP.SelectStop] s _ eq_refl))
  end.
  run_vm.
Defined.

Lemma X8_plain_predicate_filters_witness :
  exists s, MP.run mp_above_6
              [MP.InnerSend (upd 5); MP.InnerSend (upd 7); MP.SelectMiddle;
               MP.SelectMiddle; MP.DestAccepts; MP.InnerSend (upd 9); MP.SelectMiddle]
              (MP.init mp_above_6 tt) = Some s /\
    MP.sent_of (MP.trace s) ++ MP.pending s =
      List.filter (fun u => 6 <? ID u) [upd 5; upd 7; upd 9].
Proof.
  eexists. split; [run_vm|].
  refine (proj1 (X8_plain_predicate_filters tt (fun u => 6 <? ID u) 4
                   [MP.InnerSend (upd 5); MP.InnerSend (upd 7); MP.SelectMiddle;
                    MP.SelectMiddle; MP.DestAccepts; MP.InnerSend (upd 9); MP.SelectMiddle]
                   _ _)).
  run_vm.
Defined.

Lemma X9_chain_end_to_end_witness :
  MP.read_only (filter chain_above_6) /\
  exists c, Chain.run chain_above_6
              [Chain.InnerSelect; Chain.InnerFetchReturns (fetched [upd 5; upd 7]);
               Chain.InnerSend; Chain.SelectMiddle; Chain.InnerSend; Chain.SelectMiddle;
               Chain.DestAccepts]
              (Chain.init chain_above_6 tt) = Some c /\
    MP.sent_of (MP.trace (Chain.outer c)) = [upd 7] /\
    MP.sent_of (MP.trace (Chain.outer c)) `sublist_of` [upd 5; upd 7].
Proof.
  assert (Hro : MP.read_only (filter chain_above_6)) by (intros g u; reflexivity).
  split; [exact Hro|]. eexists. split; [run_vm|]. split; [reflexivity|].
  refine (proj2 (proj2 (proj2 (X9_chain_end_to_end chain_above_6 tt
            [Chain.InnerSelect; Chain.InnerFetchReturns (fetched [upd 5; upd 7]);
             Chain.InnerSend; Chain.SelectMiddle; Chain.InnerSend; Chain.SelectMiddle;
             Chain.DestAccepts] _ _))) Hro).
  run_vm.
Defined.

Lemma X11_inner_returns_after_outer_witness :
  exists c, Chain.run chain_above_6 [Chain.RaiseStop; Chain.SelectStop; Chain.InnerSelect]
              (Chain.init chain_above_6 tt) = Some c /\
    LP.pc (Chain.inner c) = LP.Returned /\ MP.stop2_closed (Chain.outer c) = true.
Proof.
  eexists. split; [run_vm|]. split; [reflexivity|].
  lazymatch goal with
  | |- MP.stop2_closed (Chain.outer ?c) = _ =>
      refine (X11_inner_returns_after_outer chain_above_6 tt
                [Chain.RaiseStop; Chain.SelectStop; Chain.InnerSelect] c _ eq_refl)
  end.
  run_vm.
Defined.

Lemma X12_inner_stuck_on_full_relay_witness :
  exists c c', Chain.run chain_above_6
                 [Chain.InnerSelect; Chain.InnerFetchReturns (fetched [upd 5; upd 7; upd 9]);
                  Chain.InnerSend; Chain.RaiseStop; Chain.SelectStop]
                 (Chain.init chain_above_6 tt) = Some c /\
    MP.pc (Chain.outer c) = MP.Returned /\
    LP.pc (Chain.inner c) = LP.InSend (upd 7) [upd 9] /\
    MP.cap (Chain.outer c) <= Z.of_nat (length (MP.relay (Chain.outer c))) /\
    Chain.run chain_above_6 [Chain.RaiseStop; Chain.RaiseStop] c = Some c' /\
    LP.pc (Chain.inner c') = LP.InSend (upd 7) [upd 9].
Proof.
  assert (Hfull : (1 <= Z.of_nat 1)%Z) by (simpl; lia).
  eexists. eexists. split; [run_vm|].
  lazymatch goal with
  | |- MP.pc (Chain.outer ?c) = _ /\ _ =>
      split; [reflexivity|]; split; [reflexivity|]; split; [exact Hfull|];
      split; [run_vm|];
      lazymatch goal with
      | |- LP.pc (Chain.inner ?c') = _ =>
          exact (proj1 (X12_inner_stuck_on_full_relay chain_above_6 c (upd 7) [upd 9]
                          [Chain.RaiseStop; Chain.RaiseStop] c' eq_refl eq_refl Hfull
                          ltac:(run_vm)))
      end
  end.
Defined.
